(** * Candidate generator: a shallow embedding of [candidate_generator.cpp]

    The program expands a base word list and a target-info word list into
    a [std::set<std::string>] of password candidates and prints the set in
    iteration order.  Strings are Rocq [string]s (sequences of 8-bit
    [ascii] values, the bytes of a [std::string]); the set is a strictly
    increasing list under byte-wise lexicographic order, which is what an
    iteration over [std::set<std::string>] yields. *)

From Stdlib Require Import List String Ascii Bool Arith NArith ZArith Lia.
From Stdlib Require Import Sorted OrderedTypeEx.
Import ListNotations.

Local Open Scope string_scope.
Local Open Scope list_scope.

(** ** The parts of the C and C++ standard libraries the program uses *)

Module Std.

(** [std::isprint] in the default "C" locale (the program never changes
    the locale): the bytes 0x20 .. 0x7E. *)
Definition isprint (c : ascii) : bool :=
  (32 <=? N_of_ascii c)%N && (N_of_ascii c <=? 126)%N.

(** [std::toupper] in the "C" locale: 'a' .. 'z' go to 'A' .. 'Z'. *)
Definition toupper (c : ascii) : ascii :=
  if (97 <=? N_of_ascii c)%N && (N_of_ascii c <=? 122)%N
  then ascii_of_N (N_of_ascii c - 32)
  else c.

(** [std::all_of(s.begin(), s.end(), p)]; true on the empty range. *)
Fixpoint all_of (p : ascii -> bool) (s : string) : bool :=
  match s with
  | EmptyString => true
  | String c r => p c && all_of p r
  end.

(** [std::replace(s.begin(), s.end(), old, new)]. *)
Fixpoint replace (old new : ascii) (s : string) : string :=
  match s with
  | EmptyString => EmptyString
  | String c r =>
      String (if Ascii.eqb c old then new else c) (replace old new r)
  end.

(** [s.empty()]. *)
Definition empty (s : string) : bool :=
  match s with
  | EmptyString => true
  | String _ _ => false
  end.

(** [operator<] on [std::string]: byte-wise lexicographic comparison,
    bytes compared as unsigned values. *)
Definition lt (a b : string) : Prop := String.compare a b = Lt.

(** [std::set<std::string>], seen through its iteration order. *)
Definition set := list string.

(** [s.insert(x)]: adds [x] at its place in the order unless an equal
    element is there already. *)
Fixpoint insert (x : string) (s : set) : set :=
  match s with
  | [] => [x]
  | y :: s' =>
      match String.compare x y with
      | Lt => x :: y :: s'
      | Eq => y :: s'
      | Gt => y :: insert x s'
      end
  end.

(** The invariant of the container: strictly increasing, hence free of
    duplicates. *)
Definition ok (s : set) : Prop := StronglySorted lt s.

(** Membership test, for evaluating concrete runs. *)
Definition mem (x : string) (s : set) : bool :=
  existsb (String.eqb x) s.

End Std.

Import Std.

(** ** The program *)

(** [is_printable], lines 19-25. *)
Definition is_printable (s : string) : bool := all_of isprint s.

(** The guard both generators and [main] apply to every word:
    [is_printable(w) && !w.empty()]. *)
Definition usable (w : string) : bool := is_printable w && negb (empty w).

(** Line 42. *)
Definition common_suffixes : list string :=
  ["2023"; "2024"; "2025"; "!"; "1"; "123"; "#"].

(** Lines 68-71 and 91-92: a copy of the word whose first character went
    through [toupper]; the empty string is left alone. *)
Definition capitalize (s : string) : string :=
  match s with
  | EmptyString => EmptyString
  | String c r => String (toupper c) r
  end.

(** A run of consecutive [candidates.insert(...)] statements. *)
Definition insert_all (ws : list string) (candidates : set) : set :=
  fold_left (fun c w => insert w c) ws candidates.

(** The strings inserted by one round of the suffix loop, lines 60-84, in
    source order. *)
Definition suffix_round (base info suffix : string) : list string :=
  let cap_info := capitalize info in
  let cap_base := capitalize base in
  [ (base ++ info) ++ suffix;
    (info ++ base) ++ suffix;
    (base ++ suffix) ++ info;
    (info ++ suffix) ++ base;
    cap_base ++ cap_info;
    cap_info ++ cap_base;
    cap_base ++ info;
    info ++ cap_base;
    (cap_base ++ cap_info) ++ suffix;
    (cap_info ++ cap_base) ++ suffix;
    (cap_base ++ info) ++ suffix;
    (info ++ cap_base) ++ suffix ]%string.

(** Body of the loop over [target_info], lines 51-85. *)
Definition info_round (base : string) (candidates : set) (info : string)
  : set :=
  if negb (is_printable info) || empty info then candidates
  else
    let candidates := insert_all [base ++ info; info ++ base]%string candidates in
    fold_left (fun c suffix => insert_all (suffix_round base info suffix) c)
              common_suffixes candidates.

(** The strings inserted by one round of the second suffix loop,
    lines 88-94. *)
Definition base_suffix_round (base suffix : string) : list string :=
  [ base ++ suffix; capitalize base ++ suffix ]%string.

(** Body of the loop over [base_words], lines 45-95. *)
Definition base_round (target_info : list string) (candidates : set)
  (base : string) : set :=
  if negb (is_printable base) || empty base then candidates
  else
    let candidates := insert base candidates in
    let candidates := fold_left (info_round base) target_info candidates in
    fold_left (fun c suffix => insert_all (base_suffix_round base suffix) c)
              common_suffixes candidates.

(** [generate_target_combinations], lines 37-97; the set passed by
    reference is threaded through. *)
Definition generate_target_combinations
  (base_words target_info : list string) (candidates : set) : set :=
  fold_left (base_round target_info) base_words candidates.

(** Lines 115-129: twelve [std::replace] calls, one after the other, on a
    copy of the word. *)
Definition leet (word : string) : string :=
  let leet_word := word in
  let leet_word := replace "e" "3" leet_word in
  let leet_word := replace "E" "3" leet_word in
  let leet_word := replace "a" "@" leet_word in
  let leet_word := replace "A" "@" leet_word in
  let leet_word := replace "o" "0" leet_word in
  let leet_word := replace "O" "0" leet_word in
  let leet_word := replace "s" "$" leet_word in
  let leet_word := replace "S" "$" leet_word in
  let leet_word := replace "i" "1" leet_word in
  let leet_word := replace "I" "1" leet_word in
  let leet_word := replace "t" "7" leet_word in
  let leet_word := replace "T" "7" leet_word in
  leet_word.

(** Body of the loop of [apply_leetspeak], lines 109-138. *)
Definition leet_round (candidates : set) (word : string) : set :=
  if negb (is_printable word) || empty word then candidates
  else
    let candidates := insert word candidates in
    let leet_word := leet word in
    if negb (String.eqb leet_word word) then insert leet_word candidates
    else candidates.

(** [apply_leetspeak], lines 105-140. *)
Definition apply_leetspeak (input_words : list string) (candidates : set)
  : set :=
  fold_left leet_round input_words candidates.

(** Lines 225-229 of [main]: the printable, non-empty base words go into
    the empty set. *)
Definition initial_candidates (base_words : list string) : set :=
  fold_left
    (fun c word =>
       if is_printable word && negb (empty word) then insert word c else c)
    base_words [].

(** Lines 219-242 of [main]: the value of [generated_candidates] when the
    output loop starts.  The vector [current_candidates_vec] is the set's
    iteration sequence at the time of the copy. *)
Definition generated_candidates (base_words target_info : list string)
  : set :=
  let generated_candidates := initial_candidates base_words in
  let generated_candidates :=
    if negb (match target_info with [] => true | _ => false end)
    then generate_target_combinations base_words target_info
           generated_candidates
    else generated_candidates in
  let current_candidates_vec : list string := generated_candidates in
  apply_leetspeak current_candidates_vec generated_candidates.

(** What a run leaves behind: the exit status and the lines on standard
    output. *)
Record outcome := { exit_code : Z; stdout : list string }.

(** [main] from line 211 on, given the two loaded line vectors (the
    target-info vector is empty when no second path was given). *)
Definition main (base_words target_info : list string) : outcome :=
  match base_words with
  | [] => {| exit_code := 1; stdout := [] |}
  | _ =>
      {| exit_code := 0;
         stdout := generated_candidates base_words target_info |}
  end.

(** ** The substitution table, as the specification words it *)

(** One character through the table e/E→3, a/A→@, o/O→0, s/S→$, i/I→1,
    t/T→7; every other character is left as it is. *)
Definition leet_char (c : ascii) : ascii :=
  if Ascii.eqb c "e" || Ascii.eqb c "E" then "3"
  else if Ascii.eqb c "a" || Ascii.eqb c "A" then "@"
  else if Ascii.eqb c "o" || Ascii.eqb c "O" then "0"
  else if Ascii.eqb c "s" || Ascii.eqb c "S" then "$"
  else if Ascii.eqb c "i" || Ascii.eqb c "I" then "1"
  else if Ascii.eqb c "t" || Ascii.eqb c "T" then "7"
  else c.

(** The table applied to every character of a string in one pass. *)
Fixpoint leet_single_pass (w : string) : string :=
  match w with
  | EmptyString => EmptyString
  | String c r => String (leet_char c) (leet_single_pass r)
  end.

(** A string all of whose characters are in the printable range. *)
Fixpoint all_printable (s : string) : Prop :=
  match s with
  | EmptyString => True
  | String c r => (32 <= N_of_ascii c <= 126)%N /\ all_printable r
  end.

(** ** What each loop round contributes *)

(** The strings the round of [info] in the loop over [target_info] puts
    into the set, for a given base word. *)
Definition info_variants (base info w : string) : Prop :=
  usable info = true /\
  (In w [base ++ info; info ++ base]%string \/
   exists suffix,
     In suffix common_suffixes /\ In w (suffix_round base info suffix)).

(** The strings the round of [base] in the loop over [base_words] puts
    into the set. *)
Definition base_variants (target_info : list string) (base w : string)
  : Prop :=
  usable base = true /\
  (w = base \/
   (exists info, In info target_info /\ info_variants base info w) \/
   exists suffix,
     In suffix common_suffixes /\ In w (base_suffix_round base suffix)).

(** The strings the round of [word] in [apply_leetspeak] puts into the
    set. *)
Definition leet_variants (word w : string) : Prop :=
  usable word = true /\ (w = word \/ w = leet word).

(** ** The combinations the specification lists *)

(** For a base word [b], an info word [t] and a suffix [x]: the word
    itself, the two concatenations, the four suffixed concatenations, the
    four capitalization variants, their suffixed forms, and the base word
    and its capitalization followed by the suffix. *)
Definition combination_members (b t x : string) : list string :=
  [ b;
    b ++ t;
    t ++ b;
    (b ++ t) ++ x;
    (t ++ b) ++ x;
    (b ++ x) ++ t;
    (t ++ x) ++ b;
    capitalize b ++ capitalize t;
    capitalize t ++ capitalize b;
    capitalize b ++ t;
    t ++ capitalize b;
    (capitalize b ++ capitalize t) ++ x;
    (capitalize t ++ capitalize b) ++ x;
    (capitalize b ++ t) ++ x;
    (t ++ capitalize b) ++ x;
    b ++ x;
    capitalize b ++ x ]%string.

(** The members the specification expects for base word "blue" and info
    word "acme". *)
Definition blue_acme_expected : list string :=
  [ "blue"; "acme"; "blueacme"; "acmeblue"; "blueacme2024"; "acmeblue2024";
    "Blueacme"; "acmeBlue"; "BlueAcme"; "AcmeBlue"; "blue2024"; "Blue2024" ].

(** The same list without the info word on its own. *)
Definition blue_acme_generated : list string :=
  [ "blue"; "blueacme"; "acmeblue"; "blueacme2024"; "acmeblue2024";
    "Blueacme"; "acmeBlue"; "BlueAcme"; "AcmeBlue"; "blue2024"; "Blue2024" ].

(** ** Reading the word lists and the command line *)

Module Stream.

(** [std::getline(file, line)] on the unread part of a stream: [None]
    when nothing is left to extract (the call fails and the reading loop
    ends); otherwise the characters up to the next line feed, which is
    consumed and not stored, or up to the end of the stream, together
    with the part still unread. *)
Fixpoint getline (unread : string) : option (string * string) :=
  match unread with
  | EmptyString => None
  | String c r =>
      if Ascii.eqb c "010" then Some (EmptyString, r)
      else
        match getline r with
        | None => Some (String c EmptyString, EmptyString)
        | Some (line, rest) => Some (String c line, rest)
        end
  end.

(** The lines that successive calls of [std::getline] deliver until a
    call fails. *)
Fixpoint getlines (unread : string) : list string :=
  match unread with
  | EmptyString => []
  | String c r =>
      if Ascii.eqb c "010" then EmptyString :: getlines r
      else
        match getlines r with
        | [] => [String c EmptyString]
        | line :: lines => String c line :: lines
        end
  end.

(** [s.back()]; [None] stands for the empty string, on which the program
    never calls it. *)
Fixpoint back (s : string) : option ascii :=
  match s with
  | EmptyString => None
  | String c r =>
      match r with
      | EmptyString => Some c
      | String _ _ => back r
      end
  end.

(** [s.pop_back()]. *)
Fixpoint pop_back (s : string) : string :=
  match s with
  | EmptyString => EmptyString
  | String c r =>
      match r with
      | EmptyString => EmptyString
      | String _ _ => String c (pop_back r)
      end
  end.

End Stream.

Import Stream.

(** Body of the reading loop of [load_file_lines], lines 161-170: one
    trailing carriage return is removed, and the line is appended unless
    it is empty. *)
Definition load_round (lines : list string) (line : string) : list string :=
  let line :=
    if negb (empty line) &&
       match back line with
       | Some c => Ascii.eqb c "013"
       | None => false
       end
    then pop_back line
    else line in
  if negb (empty line) then lines ++ [line] else lines.

(** [load_file_lines], lines 148-173.  The argument is the content of the
    file at the path, [None] when the file cannot be opened. *)
Definition load_file_lines (file : option string) : list string :=
  match file with
  | None => []
  | Some content => fold_left load_round (getlines content) []
  end.

(** [main], lines 177-265, on a file system that maps a path to the
    content of the file there, if it can be opened.  [argv] holds the
    program name first; [argc] is its length. *)
Definition main_argv (fs : string -> option string) (argv : list string)
  : outcome :=
  match argv with
  | [] | [_] => {| exit_code := 1; stdout := [] |}
  | _ :: base_wordlist_path :: rest =>
      let target_info_path :=
        match rest with
        | [] => EmptyString
        | path :: _ => path
        end in
      let base_words := load_file_lines (fs base_wordlist_path) in
      let target_info :=
        if negb (empty target_info_path)
        then load_file_lines (fs target_info_path)
        else [] in
      main base_words target_info
  end.

(** A text file: every line followed by the end-of-line sequence. *)
Fixpoint unlines (eol : string) (lines : list string) : string :=
  match lines with
  | [] => EmptyString
  | line :: rest => (line ++ eol ++ unlines eol rest)%string
  end.

(** A character is a line feed. *)
Definition is_lf (c : ascii) : bool := Ascii.eqb c "010".

(** A line as a word list file holds it: not empty, free of line feeds,
    and not ending in a carriage return. *)
Definition plain_line (line : string) : Prop :=
  line <> EmptyString /\
  (forall c, In c (list_ascii_of_string line) -> is_lf c = false) /\
  back line <> Some "013"%char.

(** ** Vocabulary for the properties of the pipeline *)

(** The strings in the set when the substitution pass starts: the
    printable non-empty base words and, when there is target info, what
    the rounds of the base words contribute. *)
Definition seed (base_words target_info : list string) (v : string) : Prop :=
  (In v base_words /\ usable v = true) \/
  (target_info <> [] /\
   exists b, In b base_words /\ base_variants target_info b v).

(** The characters the substitution replaces. *)
Definition leet_source (c : ascii) : bool :=
  existsb (Ascii.eqb c) (list_ascii_of_string "eEaAoOsSiItT").

(** The distinct strings the round of [info] can insert for [base]. *)
Definition info_strings (base info : string) : list string :=
  let cap_info := capitalize info in
  let cap_base := capitalize base in
  [ base ++ info; info ++ base;
    cap_base ++ cap_info; cap_info ++ cap_base;
    cap_base ++ info; info ++ cap_base ]%string ++
  flat_map
    (fun suffix =>
       [ (base ++ info) ++ suffix;
         (info ++ base) ++ suffix;
         (base ++ suffix) ++ info;
         (info ++ suffix) ++ base;
         (cap_base ++ cap_info) ++ suffix;
         (cap_info ++ cap_base) ++ suffix;
         (cap_base ++ info) ++ suffix;
         (info ++ cap_base) ++ suffix ]%string)
    common_suffixes.

(** The distinct strings the round of [base] can insert. *)
Definition base_strings (target_info : list string) (base : string)
  : list string :=
  base :: flat_map (info_strings base) target_info ++
  flat_map (base_suffix_round base) common_suffixes.

(** ** The pipeline over any implementation of the container *)

(** What the program uses of [std::set<std::string>]: the empty set of
    line 219, [insert], and the iteration from [begin()] to [end()] of
    lines 240 and 256.  How the container stores its elements is the
    library's business and is left open here. *)
Class SetImpl : Type := {
  carrier : Type;
  set_empty : carrier;
  set_insert : string -> carrier -> carrier;
  set_elements : carrier -> list string
}.

(** What the C++ standard promises of the container: the empty set
    iterates over nothing; after [insert(x)] the iteration meets [x] and
    what it met before, and nothing else; the iteration stays strictly
    increasing under [operator<]. *)
Record SetContract (I : SetImpl) : Prop := {
  elements_empty : set_elements set_empty = [];
  elements_insert :
    forall (x : string) (s : carrier) (y : string),
      In y (set_elements (set_insert x s)) <->
      y = x \/ In y (set_elements s);
  elements_ordered :
    forall (x : string) (s : carrier),
      ok (set_elements s) -> ok (set_elements (set_insert x s))
}.

Section OverImpl.

Context {I : SetImpl}.

(** A run of consecutive [candidates.insert(...)] statements. *)
Definition insert_all_on (ws : list string) (candidates : carrier)
  : carrier :=
  fold_left (fun c w => set_insert w c) ws candidates.

(** Body of the loop over [target_info], lines 51-85. *)
Definition info_round_on (base : string) (candidates : carrier)
  (info : string) : carrier :=
  if negb (is_printable info) || empty info then candidates
  else
    let candidates :=
      insert_all_on [base ++ info; info ++ base]%string candidates in
    fold_left
      (fun c suffix => insert_all_on (suffix_round base info suffix) c)
      common_suffixes candidates.

(** Body of the loop over [base_words], lines 45-95. *)
Definition base_round_on (target_info : list string) (candidates : carrier)
  (base : string) : carrier :=
  if negb (is_printable base) || empty base then candidates
  else
    let candidates := set_insert base candidates in
    let candidates :=
      fold_left (info_round_on base) target_info candidates in
    fold_left
      (fun c suffix => insert_all_on (base_suffix_round base suffix) c)
      common_suffixes candidates.

(** [generate_target_combinations], lines 37-97. *)
Definition generate_target_combinations_on
  (base_words target_info : list string) (candidates : carrier) : carrier :=
  fold_left (base_round_on target_info) base_words candidates.

(** Body of the loop of [apply_leetspeak], lines 109-138. *)
Definition leet_round_on (candidates : carrier) (word : string) : carrier :=
  if negb (is_printable word) || empty word then candidates
  else
    let candidates := set_insert word candidates in
    let leet_word := leet word in
    if negb (String.eqb leet_word word) then set_insert leet_word candidates
    else candidates.

(** [apply_leetspeak], lines 105-140. *)
Definition apply_leetspeak_on (input_words : list string)
  (candidates : carrier) : carrier :=
  fold_left leet_round_on input_words candidates.

(** Lines 219-229 of [main]. *)
Definition initial_candidates_on (base_words : list string) : carrier :=
  fold_left
    (fun c word =>
       if is_printable word && negb (empty word) then set_insert word c
       else c)
    base_words set_empty.

(** Lines 219-242 of [main]; the vector [current_candidates_vec] is filled
    by iterating over the set. *)
Definition generated_candidates_on (base_words target_info : list string)
  : carrier :=
  let generated_candidates := initial_candidates_on base_words in
  let generated_candidates :=
    if negb (match target_info with [] => true | _ => false end)
    then generate_target_combinations_on base_words target_info
           generated_candidates
    else generated_candidates in
  let current_candidates_vec : list string :=
    set_elements generated_candidates in
  apply_leetspeak_on current_candidates_vec generated_candidates.

(** [main] from line 211 on; the output loop of lines 256-259 iterates
    over the set. *)
Definition main_on (base_words target_info : list string) : outcome :=
  match base_words with
  | [] => {| exit_code := 1; stdout := [] |}
  | _ =>
      {| exit_code := 0;
         stdout :=
           set_elements (generated_candidates_on base_words target_info) |}
  end.

End OverImpl.

(** The container kept as a strictly increasing list: the implementation
    the rest of this development works with. *)
Definition sorted_list_impl : SetImpl :=
  {| carrier := set;
     set_empty := [];
     set_insert := insert;
     set_elements := fun s => s |}.

(** The container kept as the bare record of the insertions, put in
    order and freed of repetitions only when it is iterated over. *)
Definition sort_on_iteration_impl : SetImpl :=
  {| carrier := list string;
     set_empty := [];
     set_insert := cons;
     set_elements := fun s => fold_right insert [] s |}.

(** A container outside the contract: it iterates in the order of the
    insertions. *)
Definition insertion_order_impl : SetImpl :=
  {| carrier := list string;
     set_empty := [];
     set_insert := fun x s => if mem x s then s else s ++ [x];
     set_elements := fun s => s |}.

(** ** Concrete runs *)

Example main_blue_no_info :
  main ["blue"] [] = {| exit_code := 0; stdout := ["blu3"; "blue"] |}.
Proof. reflexivity. Qed.

Example main_empty_base_words :
  main [] ["acme"] = {| exit_code := 1; stdout := [] |}.
Proof. reflexivity. Qed.

Example main_blue_acme_size :
  List.length (stdout (main ["blue"] ["acme"])) = 138.
Proof. reflexivity. Qed.

Example capitalize_blue : capitalize "blue" = "Blue".
Proof. reflexivity. Qed.

Example capitalize_digit_first : capitalize "4ever" = "4ever".
Proof. reflexivity. Qed.

Example leet_secret : leet "Secret" = "$3cr37".
Proof. reflexivity. Qed.

Example is_printable_tab : is_printable (String "009" "x") = false.
Proof. reflexivity. Qed.

Example is_printable_high_byte : is_printable (String "200" "x") = false.
Proof. reflexivity. Qed.

Example is_printable_space : is_printable "a b" = true.
Proof. reflexivity. Qed.

Example insert_duplicate :
  insert "blue" (insert "acme" (insert "blue" [])) = ["acme"; "blue"].
Proof. reflexivity. Qed.

(** ** The order on strings *)

Section StringOrder.

Lemma lt_trans (a b c : string) : lt a b -> lt b c -> lt a c.
Proof.
  unfold lt. intros Hab Hbc.
  apply String_as_OT.cmp_lt.
  apply String_as_OT.lt_trans with b; apply String_as_OT.cmp_lt; assumption.
Qed.

Lemma compare_refl (a : string) : String.compare a a = Eq.
Proof. apply String_as_OT.cmp_eq. reflexivity. Qed.

Lemma lt_irrefl (a : string) : ~ lt a a.
Proof. unfold lt. rewrite compare_refl. discriminate. Qed.

Lemma compare_Gt_lt (a b : string) : String.compare a b = Gt -> lt b a.
Proof.
  unfold lt. intros H. rewrite String.compare_antisym, H. reflexivity.
Qed.

End StringOrder.

(** ** The set container *)

Section SetFacts.

Lemma insert_In (x y : string) (s : set) :
  In y (insert x s) <-> y = x \/ In y s.
Proof.
  induction s as [|z s IH]; simpl.
  - intuition.
  - destruct (String.compare x z) eqn:E; simpl.
    + apply String_as_OT.cmp_eq in E. subst z. intuition.
    + intuition.
    + rewrite IH. intuition.
Qed.

Lemma ok_nil : ok [].
Proof. constructor. Qed.

Lemma ok_inv (y : string) (s : set) :
  ok (y :: s) -> ok s /\ Forall (lt y) s.
Proof. intros H. inversion H; subst. split; assumption. Qed.

Lemma insert_ok (x : string) (s : set) : ok s -> ok (insert x s).
Proof.
  unfold ok. induction s as [|y s IH]; intros Hs; simpl.
  - repeat constructor.
  - apply ok_inv in Hs as [Hs Hy].
    destruct (String.compare x y) eqn:E.
    + constructor; assumption.
    + constructor; [constructor; assumption|].
      constructor; [exact E|].
      eapply Forall_impl; [|exact Hy].
      intros z Hz. exact (lt_trans _ _ _ E Hz).
    + constructor; [apply IH; assumption|].
      apply Forall_forall. intros z Hz.
      apply insert_In in Hz as [->|Hz].
      * apply compare_Gt_lt; assumption.
      * rewrite Forall_forall in Hy. apply Hy; assumption.
Qed.

Lemma insert_member (x : string) (s : set) :
  ok s -> In x s -> insert x s = s.
Proof.
  induction s as [|y s IH]; intros Hs Hx; simpl.
  - destruct Hx.
  - apply ok_inv in Hs as [Hs Hy].
    destruct Hx as [->|Hx].
    + rewrite compare_refl. reflexivity.
    + rewrite Forall_forall in Hy.
      pose proof (Hy _ Hx) as Hlt.
      pose proof (String.compare_antisym x y) as Ha.
      unfold lt in Hlt. rewrite Hlt in Ha. simpl in Ha. rewrite Ha.
      f_equal. apply IH; assumption.
Qed.

Lemma insert_length (x : string) (s : set) :
  List.length (insert x s) <= S (List.length s).
Proof.
  induction s as [|y s IH]; simpl.
  - lia.
  - destruct (String.compare x y); simpl; lia.
Qed.

Lemma ok_NoDup (s : set) : ok s -> NoDup s.
Proof.
  induction s as [|y s IH]; intros Hs.
  - constructor.
  - apply ok_inv in Hs as [Hs Hy]. constructor.
    + intros Hin. rewrite Forall_forall in Hy.
      exact (lt_irrefl _ (Hy _ Hin)).
    + apply IH; assumption.
Qed.

Lemma ok_Sorted (s : set) : ok s -> Sorted lt s.
Proof. apply StronglySorted_Sorted. Qed.

Lemma mem_In (x : string) (s : set) : mem x s = true <-> In x s.
Proof.
  unfold mem. rewrite existsb_exists. split.
  - intros [y [Hy E]]. apply String.eqb_eq in E. subst. assumption.
  - intros H. exists x. split; [assumption|apply String.eqb_refl].
Qed.

Lemma insert_all_In (ws : list string) (y : string) (s : set) :
  In y (insert_all ws s) <-> In y ws \/ In y s.
Proof.
  unfold insert_all. revert s.
  induction ws as [|w ws IH]; intros s; simpl.
  - intuition.
  - rewrite IH, insert_In. intuition.
Qed.

Lemma insert_all_ok (ws : list string) (s : set) :
  ok s -> ok (insert_all ws s).
Proof.
  unfold insert_all. revert s.
  induction ws as [|w ws IH]; intros s Hs; simpl.
  - assumption.
  - apply IH, insert_ok, Hs.
Qed.

End SetFacts.

(** ** Loops as folds *)

Section Folds.

Context {A B : Type} (f : A -> B -> A).

(** A property kept by every round is kept by the loop. *)
Lemma fold_left_invariant (P : A -> Prop) (l : list B) :
  (forall a b, In b l -> P a -> P (f a b)) ->
  forall a, P a -> P (fold_left f l a).
Proof.
  induction l as [|b l IH]; intros Hstep a Ha; simpl.
  - assumption.
  - apply IH.
    + intros a' b' Hb'. apply Hstep. now right.
    + apply Hstep; [now left|assumption].
Qed.

(** Elements whose round does nothing can be filtered out beforehand. *)
Lemma fold_left_filter (p : B -> bool) (l : list B) :
  (forall a b, p b = false -> f a b = a) ->
  forall a, fold_left f (filter p l) a = fold_left f l a.
Proof.
  intros Hskip. induction l as [|b l IH]; intros a; simpl.
  - reflexivity.
  - destruct (p b) eqn:E; simpl.
    + apply IH.
    + rewrite (Hskip a b E). apply IH.
Qed.

Lemma fold_left_ext (g : A -> B -> A) (l : list B) :
  (forall a b, f a b = g a b) ->
  forall a, fold_left f l a = fold_left g l a.
Proof.
  intros Hfg. induction l as [|b l IH]; intros a; simpl.
  - reflexivity.
  - rewrite Hfg. apply IH.
Qed.

End Folds.

(** ** The word guard *)

Section Guard.

Lemma isprint_range (c : ascii) :
  isprint c = true <-> (32 <= N_of_ascii c <= 126)%N.
Proof.
  unfold isprint. rewrite andb_true_iff, !N.leb_le. reflexivity.
Qed.

Lemma is_printable_all_printable (s : string) :
  is_printable s = true <-> all_printable s.
Proof.
  unfold is_printable. induction s as [|c r IH]; simpl.
  - intuition.
  - rewrite andb_true_iff, isprint_range, IH. reflexivity.
Qed.

Lemma empty_true (s : string) : empty s = true <-> s = "".
Proof. destruct s; simpl; split; congruence. Qed.

Lemma usable_iff (s : string) :
  usable s = true <-> s <> "" /\ all_printable s.
Proof.
  unfold usable.
  rewrite andb_true_iff, negb_true_iff, is_printable_all_printable.
  rewrite <- not_true_iff_false, empty_true. intuition.
Qed.

(** The [continue] condition of the three loops. *)
Lemma skip_guard (w : string) :
  negb (is_printable w) || empty w = negb (usable w).
Proof. unfold usable. destruct (is_printable w), (empty w); reflexivity. Qed.

Lemma all_printable_append (a b : string) :
  all_printable (a ++ b) <-> all_printable a /\ all_printable b.
Proof.
  induction a as [|c r IH]; simpl.
  - intuition.
  - rewrite IH. intuition.
Qed.

Lemma usable_append_l (a b : string) :
  usable a = true -> all_printable b -> usable (a ++ b) = true.
Proof.
  rewrite !usable_iff, all_printable_append. intros [Hne Ha] Hb.
  split; [|tauto]. destruct a; simpl; congruence.
Qed.

Lemma usable_all_printable (a : string) :
  usable a = true -> all_printable a.
Proof. rewrite usable_iff. tauto. Qed.

Lemma toupper_printable (c : ascii) :
  (32 <= N_of_ascii c <= 126)%N -> (32 <= N_of_ascii (toupper c) <= 126)%N.
Proof.
  intros H. unfold toupper.
  destruct ((97 <=? N_of_ascii c)%N && (N_of_ascii c <=? 122)%N) eqn:E;
    [|assumption].
  apply andb_true_iff in E as [E1 E2].
  apply N.leb_le in E1, E2.
  rewrite N_ascii_embedding by lia. lia.
Qed.

Lemma capitalize_usable (a : string) :
  usable a = true -> usable (capitalize a) = true.
Proof.
  rewrite !usable_iff. destruct a as [|c r]; simpl.
  - tauto.
  - intros [_ [Hc Hr]]. split; [congruence|].
    split; [apply toupper_printable; assumption|assumption].
Qed.

Lemma common_suffixes_printable (x : string) :
  In x common_suffixes -> all_printable x.
Proof.
  intros H. apply is_printable_all_printable.
  unfold common_suffixes in H. simpl in H.
  repeat (destruct H as [<-|H]; [reflexivity|]). destruct H.
Qed.

End Guard.

(** ** Membership after each loop *)

Section Membership.

(** A loop whose every round adds the strings [N b] adds their union. *)
Lemma fold_left_In {B : Type} (f : set -> B -> set)
  (N : B -> string -> Prop) :
  (forall c b w, In w (f c b) <-> In w c \/ N b w) ->
  forall l c w,
    In w (fold_left f l c) <-> In w c \/ exists b, In b l /\ N b w.
Proof.
  intros Hf. induction l as [|b l IH]; intros c w; simpl.
  - split; [tauto|]. intros [H|[b [[] _]]]. assumption.
  - rewrite IH, Hf. split.
    + intros [[H|H]|[b' [Hb' H]]].
      * now left.
      * right. exists b. tauto.
      * right. exists b'. tauto.
    + intros [H|[b' [[<-|Hb'] H]]].
      * tauto.
      * tauto.
      * right. exists b'. tauto.
Qed.

Lemma info_round_In (base info w : string) (c : set) :
  In w (info_round base c info) <-> In w c \/ info_variants base info w.
Proof.
  unfold info_round, info_variants. rewrite skip_guard.
  destruct (usable info); simpl negb; cbv iota.
  - rewrite (fold_left_In _
               (fun suffix w => In w (suffix_round base info suffix)))
      by (intros; rewrite insert_all_In; tauto).
    rewrite insert_all_In. tauto.
  - split; [tauto|]. intros [H|[H _]]; [assumption|discriminate].
Qed.

Lemma base_round_In (target_info : list string) (base w : string)
  (c : set) :
  In w (base_round target_info c base) <->
  In w c \/ base_variants target_info base w.
Proof.
  unfold base_round, base_variants. rewrite skip_guard.
  destruct (usable base); simpl negb; cbv iota.
  - rewrite (fold_left_In _
               (fun suffix w => In w (base_suffix_round base suffix)))
      by (intros; rewrite insert_all_In; tauto).
    rewrite (fold_left_In _ (info_variants base))
      by (intros; apply info_round_In).
    rewrite insert_In. tauto.
  - split; [tauto|]. intros [H|[H _]]; [assumption|discriminate].
Qed.

Lemma generate_target_combinations_In
  (base_words target_info : list string) (c : set) (w : string) :
  In w (generate_target_combinations base_words target_info c) <->
  In w c \/
  exists base, In base base_words /\ base_variants target_info base w.
Proof.
  unfold generate_target_combinations.
  apply fold_left_In. intros. apply base_round_In.
Qed.

Lemma leet_round_In (word w : string) (c : set) :
  In w (leet_round c word) <-> In w c \/ leet_variants word w.
Proof.
  unfold leet_round, leet_variants. rewrite skip_guard.
  destruct (usable word); simpl negb; cbv iota.
  - destruct (String.eqb (leet word) word) eqn:E; simpl negb; cbv iota.
    + apply String.eqb_eq in E. rewrite E, insert_In. tauto.
    + rewrite !insert_In. tauto.
  - split; [tauto|]. intros [H|[H _]]; [assumption|discriminate].
Qed.

Lemma apply_leetspeak_In (input_words : list string) (c : set)
  (w : string) :
  In w (apply_leetspeak input_words c) <->
  In w c \/ exists word, In word input_words /\ leet_variants word w.
Proof.
  unfold apply_leetspeak.
  apply fold_left_In. intros. apply leet_round_In.
Qed.

Lemma initial_candidates_In (base_words : list string) (w : string) :
  In w (initial_candidates base_words) <->
  In w base_words /\ usable w = true.
Proof.
  unfold initial_candidates.
  rewrite (fold_left_In _ (fun word w => usable word = true /\ w = word)).
  - split.
    + intros [[]|[b [Hb [Hu ->]]]]. tauto.
    + intros [Hw Hu]. right. exists w. tauto.
  - intros c b w'. fold (usable b).
    destruct (usable b).
    + rewrite insert_In. intuition.
    + intuition discriminate.
Qed.

End Membership.

(** ** The container invariant along the pipeline *)

Section Invariant.

Lemma info_round_ok (base info : string) (c : set) :
  ok c -> ok (info_round base c info).
Proof.
  intros Hc. unfold info_round.
  destruct (negb (is_printable info) || empty info); [assumption|].
  apply fold_left_invariant.
  - intros a b _. apply insert_all_ok.
  - apply insert_all_ok, Hc.
Qed.

Lemma base_round_ok (target_info : list string) (base : string) (c : set) :
  ok c -> ok (base_round target_info c base).
Proof.
  intros Hc. unfold base_round.
  destruct (negb (is_printable base) || empty base); [assumption|].
  apply fold_left_invariant.
  - intros a b _. apply insert_all_ok.
  - apply fold_left_invariant.
    + intros a b _. apply info_round_ok.
    + apply insert_ok, Hc.
Qed.

Lemma generate_target_combinations_ok
  (base_words target_info : list string) (c : set) :
  ok c -> ok (generate_target_combinations base_words target_info c).
Proof.
  unfold generate_target_combinations.
  apply fold_left_invariant. intros a b _. apply base_round_ok.
Qed.

Lemma leet_round_ok (word : string) (c : set) :
  ok c -> ok (leet_round c word).
Proof.
  intros Hc. unfold leet_round.
  destruct (negb (is_printable word) || empty word); [assumption|].
  destruct (negb (String.eqb (leet word) word)).
  - apply insert_ok, insert_ok, Hc.
  - apply insert_ok, Hc.
Qed.

Lemma apply_leetspeak_ok (input_words : list string) (c : set) :
  ok c -> ok (apply_leetspeak input_words c).
Proof.
  unfold apply_leetspeak.
  apply fold_left_invariant. intros a b _. apply leet_round_ok.
Qed.

Lemma initial_candidates_ok (base_words : list string) :
  ok (initial_candidates base_words).
Proof.
  unfold initial_candidates.
  apply fold_left_invariant; [|apply ok_nil].
  intros a b _ Ha.
  destruct (is_printable b && negb (empty b)); [apply insert_ok|]; exact Ha.
Qed.

Lemma generated_candidates_ok (base_words target_info : list string) :
  ok (generated_candidates base_words target_info).
Proof.
  unfold generated_candidates.
  apply apply_leetspeak_ok.
  destruct target_info; simpl negb; cbv iota.
  - apply initial_candidates_ok.
  - apply generate_target_combinations_ok, initial_candidates_ok.
Qed.

Lemma main_stdout_ok (base_words target_info : list string) :
  ok (stdout (main base_words target_info)).
Proof.
  unfold main. destruct base_words; simpl.
  - apply ok_nil.
  - apply generated_candidates_ok.
Qed.

Lemma main_stdout (base_words target_info : list string) :
  base_words <> [] ->
  stdout (main base_words target_info) =
  generated_candidates base_words target_info.
Proof. destruct base_words; [congruence|reflexivity]. Qed.

End Invariant.

(** ** Ordering and uniqueness of the output *)

(** C1: whatever the two word lists are, the sequence [main] prints is
    strictly increasing under byte-wise lexicographic comparison (each
    element is below its successor), and so no string occurs in it
    twice. *)
Theorem output_strictly_increasing (base_words target_info : list string) :
  Sorted Std.lt (stdout (main base_words target_info)) /\
  NoDup (stdout (main base_words target_info)).
Proof.
  pose proof (main_stdout_ok base_words target_info) as H.
  split; [apply ok_Sorted|apply ok_NoDup]; exact H.
Qed.

(** ** Growth only *)

(** C9: a string that is in the candidate set before a call of
    [generate_target_combinations] or of [apply_leetspeak] is in it after
    the call, whatever the set and the arguments are. *)
Theorem generators_only_insert
  (base_words target_info input_words : list string) (candidates : set)
  (w : string) :
  In w candidates ->
  In w (generate_target_combinations base_words target_info candidates) /\
  In w (apply_leetspeak input_words candidates).
Proof.
  intros H. split.
  - apply generate_target_combinations_In. now left.
  - apply apply_leetspeak_In. now left.
Qed.

Lemma generators_only_insert_witness :
  In "zebra" ["apple"; "zebra"] /\
  In "zebra"
    (generate_target_combinations ["blue"] ["acme"] ["apple"; "zebra"]) /\
  In "zebra" (apply_leetspeak ["apple"; "zebra"] ["apple"; "zebra"]).
Proof.
  split.
  - simpl. tauto.
  - apply (generators_only_insert ["blue"] ["acme"] ["apple"; "zebra"]).
    simpl. tauto.
Defined.

(** ** Combination completeness *)

Section Completeness.

Lemma combination_members_variants
  (target_info : list string) (b t x w : string) :
  In t target_info -> usable b = true -> usable t = true ->
  In x common_suffixes ->
  In w (combination_members b t x) -> base_variants target_info b w.
Proof.
  intros Ht Hb Hut Hx Hw. split; [exact Hb|].
  assert (Hinfo : forall v,
             In v [b ++ t; t ++ b]%string \/ In v (suffix_round b t x) ->
             exists info, In info target_info /\ info_variants b info v).
  { intros v Hv. exists t. split; [exact Ht|]. split; [exact Hut|].
    destruct Hv as [Hv|Hv]; [now left|]. right. exists x. tauto. }
  assert (Hsuf : forall v,
             In v (base_suffix_round b x) ->
             exists suffix,
               In suffix common_suffixes /\
               In v (base_suffix_round b suffix)).
  { intros v Hv. exists x. tauto. }
  unfold combination_members in Hw. simpl in Hw.
  destruct Hw as [<-|Hw]; [now left|].
  repeat (destruct Hw as [<-|Hw];
          [right; first [ right; apply Hsuf; simpl; tauto
                        | left; apply Hinfo; simpl; tauto ]|]).
  destruct Hw.
Qed.

Lemma generated_candidates_contains_variants
  (base_words target_info : list string) (b w : string) :
  target_info <> [] -> In b base_words ->
  base_variants target_info b w ->
  In w (generated_candidates base_words target_info).
Proof.
  intros HT Hb Hw. unfold generated_candidates.
  apply apply_leetspeak_In. left.
  destruct target_info; [congruence|]. simpl negb. cbv iota.
  apply generate_target_combinations_In. right. exists b. tauto.
Qed.

End Completeness.

(** C2, as the code has it: for base word "blue" and info word "acme" the
    output holds blue, blueacme, acmeblue, blueacme2024, acmeblue2024,
    Blueacme, acmeBlue, BlueAcme, AcmeBlue, blue2024 and Blue2024; and for
    every printable non-empty base word [b], printable non-empty info word
    [t] and suffix [x] it holds every string of [combination_members]. *)
Theorem combination_completeness :
  In "2024" common_suffixes /\
  Forall (fun w => In w (stdout (main ["blue"] ["acme"])))
         blue_acme_generated /\
  forall (base_words target_info : list string) (b t x : string),
    In b base_words -> In t target_info ->
    usable b = true -> usable t = true -> In x common_suffixes ->
    Forall (fun w => In w (stdout (main base_words target_info)))
           (combination_members b t x).
Proof.
  assert (G : forall (base_words target_info : list string) (b t x : string),
             In b base_words -> In t target_info ->
             usable b = true -> usable t = true -> In x common_suffixes ->
             Forall (fun w => In w (stdout (main base_words target_info)))
                    (combination_members b t x)).
  { intros base_words target_info b t x Hb Ht Hub Hut Hx.
    apply Forall_forall. intros w Hw.
    rewrite main_stdout by (intros ->; destruct Hb).
    apply generated_candidates_contains_variants with b.
    - intros ->. destruct Ht.
    - exact Hb.
    - apply combination_members_variants with t x; assumption. }
  split; [simpl; tauto|]. split; [|exact G].
  apply Forall_forall. intros w Hw.
  assert (H2024 : In "2024" common_suffixes) by (simpl; tauto).
  assert (Hblue : In "blue" ["blue"]) by (simpl; tauto).
  assert (Hacme : In "acme" ["acme"]) by (simpl; tauto).
  pose proof (G ["blue"] ["acme"] "blue" "acme" "2024"
                Hblue Hacme eq_refl eq_refl H2024) as H.
  rewrite Forall_forall in H. apply H.
  unfold blue_acme_generated in Hw. simpl in Hw. simpl.
  intuition.
Qed.

Lemma combination_completeness_witness :
  Forall (fun w => In w (stdout (main ["red"; "blue"] ["acme"; "corp"])))
         (combination_members "blue" "corp" "!").
Proof.
  apply (proj2 (proj2 combination_completeness)); simpl; tauto.
Defined.

(** C2, as stated, fails: the info word on its own is never inserted, so
    "acme" is not in the output for base word "blue" and info word
    "acme". *)
Lemma info_word_alone_not_generated :
  ~ Forall (fun w => In w (stdout (main ["blue"] ["acme"])))
           blue_acme_expected.
Proof.
  intros H. rewrite Forall_forall in H.
  assert (Hin : In "acme" blue_acme_expected) by (simpl; tauto).
  apply H, mem_In in Hin. vm_compute in Hin. discriminate.
Qed.

(** ** An empty target-info list *)

Section EmptyTargetInfo.

Lemma base_suffix_variants (target_info : list string) (b x : string) :
  usable b = true -> In x common_suffixes ->
  base_variants target_info b (b ++ x)%string /\
  base_variants target_info b (capitalize b ++ x)%string.
Proof.
  intros Hb Hx.
  split; (split; [exact Hb|]); right; right; exists x;
    (split; [exact Hx|]); simpl; tauto.
Qed.

Lemma generated_candidates_no_info (base_words : list string) (w : string) :
  In w (generated_candidates base_words []) <->
  exists b, In b base_words /\ usable b = true /\ (w = b \/ w = leet b).
Proof.
  unfold generated_candidates. simpl negb. cbv iota.
  rewrite apply_leetspeak_In. unfold leet_variants. split.
  - intros [H|[word [Hword [Hu Hw]]]].
    + apply initial_candidates_In in H. exists w. tauto.
    + apply initial_candidates_In in Hword. exists word. tauto.
  - intros [b [Hb [Hu Hw]]]. right. exists b.
    rewrite initial_candidates_In. tauto.
Qed.

End EmptyTargetInfo.

(** C3, as the code has it: [generate_target_combinations] called with an
    empty target-info list inserts [b+x] and [Cap(b)+x] for every
    printable non-empty base word [b] and suffix [x]; [main] calls it only
    when the target-info list is non-empty, and then these strings are in
    the output; with an empty target-info list the output holds exactly
    the printable non-empty base words and their leetspeak forms. *)
Theorem empty_target_info_behaviour :
  (forall (base_words : list string) (candidates : set) (b x : string),
      In b base_words -> usable b = true -> In x common_suffixes ->
      In (b ++ x)%string
         (generate_target_combinations base_words [] candidates) /\
      In (capitalize b ++ x)%string
         (generate_target_combinations base_words [] candidates)) /\
  (forall (base_words target_info : list string) (b x : string),
      target_info <> [] ->
      In b base_words -> usable b = true -> In x common_suffixes ->
      In (b ++ x)%string (stdout (main base_words target_info)) /\
      In (capitalize b ++ x)%string (stdout (main base_words target_info))) /\
  (forall (base_words : list string) (w : string),
      In w (stdout (main base_words [])) <->
      exists b, In b base_words /\ usable b = true /\ (w = b \/ w = leet b)).
Proof.
  split; [|split].
  - intros base_words candidates b x Hb Hu Hx.
    destruct (base_suffix_variants [] b x Hu Hx) as [H1 H2].
    split; apply generate_target_combinations_In; right; exists b; tauto.
  - intros base_words target_info b x HT Hb Hu Hx.
    rewrite main_stdout by (intros ->; destruct Hb).
    destruct (base_suffix_variants target_info b x Hu Hx) as [H1 H2].
    split; apply generated_candidates_contains_variants with b; assumption.
  - intros base_words w. destruct base_words as [|b0 base_words].
    + simpl. split; [tauto|]. intros [b [[] _]].
    + rewrite main_stdout by discriminate.
      apply generated_candidates_no_info.
Qed.

Lemma empty_target_info_behaviour_witness :
  (In "blue2024" (generate_target_combinations ["blue"] [] []) /\
   In "Blue2024" (generate_target_combinations ["blue"] [] [])) /\
  (In "blue2024" (stdout (main ["blue"] ["acme"])) /\
   In "Blue2024" (stdout (main ["blue"] ["acme"]))) /\
  In "blu3" (stdout (main ["blue"] [])).
Proof.
  destruct empty_target_info_behaviour as [H1 [H2 H3]].
  split; [|split].
  - apply (H1 ["blue"] [] "blue" "2024"); simpl; tauto.
  - apply (H2 ["blue"] ["acme"] "blue" "2024");
      simpl; (tauto || discriminate).
  - apply (H3 ["blue"] "blu3"). exists "blue". simpl. tauto.
Defined.

(** C3, as stated, fails: with base word "blue" and no target info the
    suffixed forms are not in the output. *)
Lemma empty_target_info_skips_combinations :
  ~ (forall b x : string,
        In b ["blue"] -> usable b = true -> In x common_suffixes ->
        In (b ++ x)%string (stdout (main ["blue"] [])) /\
        In (capitalize b ++ x)%string (stdout (main ["blue"] []))).
Proof.
  intros H.
  destruct (H "blue" "2024") as [H1 _];
    [simpl; tauto|reflexivity|simpl; tauto|].
  apply mem_In in H1. vm_compute in H1. discriminate.
Qed.

(** ** The substitution *)

Section Leet.

Lemma leet_cons (c : ascii) (r : string) :
  leet (String c r) = (leet (String c "") ++ leet r)%string.
Proof. reflexivity. Qed.

(** On one character the twelve replacements amount to the table. *)
Lemma leet_one_char (c : ascii) :
  leet (String c "") = String (leet_char c) "".
Proof. destruct c as [[] [] [] [] [] [] [] []]; reflexivity. Qed.

Lemma leet_is_single_pass (w : string) : leet w = leet_single_pass w.
Proof.
  induction w as [|c r IH].
  - reflexivity.
  - rewrite leet_cons, leet_one_char, IH. reflexivity.
Qed.

(** No character the table produces is a character it replaces. *)
Lemma leet_char_idempotent (c : ascii) :
  leet_char (leet_char c) = leet_char c.
Proof. destruct c as [[] [] [] [] [] [] [] []]; reflexivity. Qed.

Lemma leet_char_isprint (c : ascii) :
  isprint (leet_char c) = isprint c.
Proof. destruct c as [[] [] [] [] [] [] [] []]; reflexivity. Qed.

Lemma leet_leet (w : string) : leet (leet w) = leet w.
Proof.
  rewrite !leet_is_single_pass.
  induction w as [|c r IH]; simpl.
  - reflexivity.
  - rewrite leet_char_idempotent, IH. reflexivity.
Qed.

Lemma leet_usable (w : string) : usable (leet w) = usable w.
Proof.
  rewrite leet_is_single_pass. unfold usable, is_printable.
  f_equal.
  - induction w as [|c r IH]; simpl.
    + reflexivity.
    + rewrite leet_char_isprint, IH. reflexivity.
  - destruct w; reflexivity.
Qed.

(** A pass over words that are in the set, and whose substituted forms
    are in the set, changes nothing. *)
Lemma apply_leetspeak_fixed (input_words : list string) (c : set) :
  ok c ->
  (forall w, In w input_words -> In w c) ->
  (forall w, In w input_words -> usable w = true -> In (leet w) c) ->
  apply_leetspeak input_words c = c.
Proof.
  intros Hok. unfold apply_leetspeak.
  induction input_words as [|word ws IH]; intros Hin Hleet; simpl.
  - reflexivity.
  - assert (Hround : leet_round c word = c).
    { unfold leet_round. rewrite skip_guard.
      destruct (usable word) eqn:Hu; simpl negb; cbv iota;
        [|reflexivity].
      rewrite (insert_member word c Hok) by (apply Hin; now left).
      destruct (negb (String.eqb (leet word) word)); [|reflexivity].
      apply insert_member; [exact Hok|].
      apply Hleet; [now left|exact Hu]. }
    rewrite Hround. apply IH.
    + intros w Hw. apply Hin. now right.
    + intros w Hw. apply Hleet. now right.
Qed.

(** A pass over words that are in the set adds at most one string per
    word. *)
Lemma apply_leetspeak_length (input_words : list string) :
  forall c : set,
    ok c ->
    (forall w, In w input_words -> In w c) ->
    List.length (apply_leetspeak input_words c) <=
    List.length c + List.length input_words.
Proof.
  unfold apply_leetspeak.
  induction input_words as [|word ws IH]; intros c Hok Hin; simpl.
  - lia.
  - assert (Hlen : List.length (leet_round c word) <= S (List.length c)).
    { unfold leet_round.
      destruct (negb (is_printable word) || empty word); [lia|].
      rewrite (insert_member word c Hok) by (apply Hin; now left).
      destruct (negb (String.eqb (leet word) word)); [|lia].
      apply insert_length. }
    specialize (IH (leet_round c word) (leet_round_ok word c Hok)).
    assert (Hin' : forall w, In w ws -> In w (leet_round c word)).
    { intros w Hw. apply leet_round_In. left. apply Hin. now right. }
    specialize (IH Hin'). lia.
Qed.

End Leet.

(** ** Transliteration correctness *)

(** C4: the twelve replacements of [apply_leetspeak] amount to one pass
    that sends e/E to 3, a/A to @, o/O to 0, s/S to $, i/I to 1 and t/T to
    7 and leaves every other character as it is; run on the word "Secret"
    the transformer adds "Secret" itself and "$3cr37" and nothing else,
    so on a collection that holds "Secret" the one new member is
    "$3cr37". *)
Theorem transliteration_correct :
  (forall w : string, leet w = leet_single_pass w) /\
  (forall (candidates : set) (w : string),
      In w (apply_leetspeak ["Secret"] candidates) <->
      In w candidates \/ w = "Secret" \/ w = "$3cr37") /\
  apply_leetspeak ["Secret"] ["Secret"] = ["$3cr37"; "Secret"].
Proof.
  split; [exact leet_is_single_pass|]. split; [|reflexivity].
  intros candidates w. rewrite apply_leetspeak_In. split.
  - intros [H|[word [[<-|[]] [_ H]]]]; [now left|right].
    exact H.
  - intros [H|H]; [now left|]. right. exists "Secret".
    split; [now left|]. split; [reflexivity|exact H].
Qed.

(** ** Idempotence of the substitution *)

(** C5: substituting a substituted string gives the same string, and a
    second run of the transformer over the whole collection, the output
    of the first run included, leaves the collection as it is. *)
Theorem leet_idempotent :
  (forall w : string, leet (leet w) = leet w) /\
  (forall candidates : set,
      ok candidates ->
      let after := apply_leetspeak candidates candidates in
      apply_leetspeak after after = after).
Proof.
  split; [exact leet_leet|].
  intros candidates Hok after.
  assert (Hafter : ok after) by (apply apply_leetspeak_ok, Hok).
  apply apply_leetspeak_fixed; [exact Hafter|tauto|].
  intros w Hw Hu. unfold after in *.
  apply apply_leetspeak_In in Hw as [Hw|[word [Hword [Huw [->| ->]]]]].
  - apply apply_leetspeak_In. right. exists w.
    split; [exact Hw|]. split; [exact Hu|now right].
  - apply apply_leetspeak_In. right. exists word.
    split; [exact Hword|]. split; [exact Huw|now right].
  - rewrite leet_leet.
    apply apply_leetspeak_In. right. exists word.
    split; [exact Hword|]. split; [exact Huw|now right].
Qed.

Lemma leet_idempotent_witness :
  ok ["Secret"; "blue"] /\
  apply_leetspeak (apply_leetspeak ["Secret"; "blue"] ["Secret"; "blue"])
                  (apply_leetspeak ["Secret"; "blue"] ["Secret"; "blue"]) =
  apply_leetspeak ["Secret"; "blue"] ["Secret"; "blue"].
Proof.
  assert (Hok : ok ["Secret"; "blue"]).
  { repeat constructor. }
  split; [exact Hok|].
  exact (proj2 leet_idempotent ["Secret"; "blue"] Hok).
Defined.

(** ** Size of the collection after the transformer *)

(** C7: when the transformer runs over the contents of the collection
    itself, the collection afterwards has at most twice as many members
    as before. *)
Theorem apply_leetspeak_at_most_doubles (candidates : set) :
  ok candidates ->
  List.length (apply_leetspeak candidates candidates) <=
  2 * List.length candidates.
Proof.
  intros Hok.
  pose proof (apply_leetspeak_length candidates candidates Hok
                (fun w H => H)).
  lia.
Qed.

Lemma apply_leetspeak_at_most_doubles_witness :
  List.length (apply_leetspeak ["Secret"; "blue"] ["Secret"; "blue"]) <=
  2 * List.length ["Secret"; "blue"].
Proof.
  apply (apply_leetspeak_at_most_doubles ["Secret"; "blue"]).
  repeat constructor.
Defined.

(** ** Determinism *)

Section Canonical.

(** Two sets with the same members iterate in the same sequence. *)
Lemma ok_same_members (s s' : set) :
  ok s -> ok s' -> (forall w, In w s <-> In w s') -> s = s'.
Proof.
  revert s'. induction s as [|x s IH]; intros [|y s'] Hs Hs' Hmem.
  - reflexivity.
  - exfalso. apply (proj2 (Hmem y)). now left.
  - exfalso. apply (proj1 (Hmem x)). now left.
  - apply ok_inv in Hs as [Hs Hx]. apply ok_inv in Hs' as [Hs' Hy].
    rewrite Forall_forall in Hx, Hy.
    assert (Hxy : x = y).
    { destruct (proj1 (Hmem x) (or_introl eq_refl)) as [E|Hin];
        [congruence|].
      destruct (proj2 (Hmem y) (or_introl eq_refl)) as [E|Hin'];
        [congruence|].
      exfalso. apply (lt_irrefl x).
      apply lt_trans with y; [apply Hx|apply Hy]; assumption. }
    subst y. f_equal. apply IH; [assumption|assumption|].
    intros w. split; intros Hw.
    + destruct (proj1 (Hmem w) (or_intror Hw)) as [E|Hin];
        [|exact Hin].
      exfalso. subst w. exact (lt_irrefl _ (Hx _ Hw)).
    + destruct (proj2 (Hmem w) (or_intror Hw)) as [E|Hin];
        [|exact Hin].
      exfalso. subst w. exact (lt_irrefl _ (Hy _ Hw)).
Qed.

End Canonical.

(** ** The printability predicate *)

(** C8, as the code has it: [is_printable] is true exactly for the
    strings all of whose characters are in the range 0x20 .. 0x7E (space
    included, control characters and bytes from 0x7F on excluded), the
    empty string among them; the guard the callers use,
    [is_printable(s) && !s.empty()], is true exactly for the non-empty
    strings of that kind. *)
Theorem is_printable_spec :
  (forall s : string, is_printable s = true <-> all_printable s) /\
  is_printable "" = true /\
  (forall s : string, usable s = true <-> s <> "" /\ all_printable s).
Proof.
  split; [exact is_printable_all_printable|].
  split; [reflexivity|exact usable_iff].
Qed.

(** C8, as stated, fails: [is_printable] does not return false for the
    empty string. *)
Lemma is_printable_empty_string : is_printable "" <> false.
Proof. discriminate. Qed.

(** ** Words that fail the guard *)

Section Skipping.

Lemma info_round_skip (base info : string) (c : set) :
  usable info = false -> info_round base c info = c.
Proof.
  intros H. unfold info_round. rewrite skip_guard, H. reflexivity.
Qed.

Lemma base_round_skip (target_info : list string) (base : string)
  (c : set) :
  usable base = false -> base_round target_info c base = c.
Proof.
  intros H. unfold base_round. rewrite skip_guard, H. reflexivity.
Qed.

Lemma leet_round_skip (word : string) (c : set) :
  usable word = false -> leet_round c word = c.
Proof.
  intros H. unfold leet_round. rewrite skip_guard, H. reflexivity.
Qed.

Lemma base_round_filter (target_info : list string) (base : string)
  (c : set) :
  base_round (filter usable target_info) c base =
  base_round target_info c base.
Proof.
  unfold base_round.
  destruct (negb (is_printable base) || empty base); [reflexivity|].
  f_equal. apply fold_left_filter.
  intros a b. apply info_round_skip.
Qed.

Lemma generate_target_combinations_filter
  (base_words target_info : list string) (c : set) :
  generate_target_combinations
    (filter usable base_words) (filter usable target_info) c =
  generate_target_combinations base_words target_info c.
Proof.
  unfold generate_target_combinations.
  rewrite (fold_left_filter (base_round (filter usable target_info)))
    by (intros a b; apply base_round_skip).
  apply fold_left_ext. intros a b. apply base_round_filter.
Qed.

Lemma apply_leetspeak_filter (input_words : list string) (c : set) :
  apply_leetspeak (filter usable input_words) c =
  apply_leetspeak input_words c.
Proof.
  unfold apply_leetspeak. apply fold_left_filter.
  intros a b. apply leet_round_skip.
Qed.

Create HintDb usable.

#[local] Hint Resolve usable_append_l capitalize_usable
  usable_all_printable common_suffixes_printable : usable.

Lemma info_variants_usable (base info w : string) :
  usable base = true -> info_variants base info w -> usable w = true.
Proof.
  intros Hb [Ht [Hw|[x [Hx Hw]]]]; simpl in Hw.
  - repeat (destruct Hw as [<-|Hw]; [auto 6 with usable|]). destruct Hw.
  - repeat (destruct Hw as [<-|Hw]; [auto 8 with usable|]). destruct Hw.
Qed.

Lemma base_variants_usable (target_info : list string) (base w : string) :
  base_variants target_info base w -> usable w = true.
Proof.
  intros [Hb [->|[[info [_ Hw]]|[x [Hx Hw]]]]].
  - exact Hb.
  - exact (info_variants_usable base info w Hb Hw).
  - simpl in Hw.
    repeat (destruct Hw as [<-|Hw]; [auto 6 with usable|]). destruct Hw.
Qed.

Lemma leet_variants_usable (word w : string) :
  leet_variants word w -> usable w = true.
Proof.
  intros [Hu [->| ->]]; [exact Hu|]. rewrite leet_usable. exact Hu.
Qed.

End Skipping.

(** C10: an empty or non-printable word in an input list of
    [generate_target_combinations] or [apply_leetspeak] is passed over:
    the resulting set is the one obtained from the lists without such
    words, and every member of the result that was not in the set before
    is printable and non-empty; the loop of [main] that fills the set
    with the base words lets only printable non-empty words in.  The
    functions are total: no input makes them fail. *)
Theorem generators_skip_unusable_words
  (base_words target_info input_words : list string) (candidates : set) :
  generate_target_combinations base_words target_info candidates =
  generate_target_combinations
    (filter usable base_words) (filter usable target_info) candidates /\
  apply_leetspeak input_words candidates =
  apply_leetspeak (filter usable input_words) candidates /\
  (forall w,
      In w (generate_target_combinations base_words target_info candidates) ->
      In w candidates \/ usable w = true) /\
  (forall w,
      In w (apply_leetspeak input_words candidates) ->
      In w candidates \/ usable w = true) /\
  (forall w, In w (initial_candidates base_words) -> usable w = true).
Proof.
  split; [symmetry; apply generate_target_combinations_filter|].
  split; [symmetry; apply apply_leetspeak_filter|].
  split; [|split]; intros w Hw.
  3: { apply initial_candidates_In in Hw. tauto. }
  - apply generate_target_combinations_In in Hw as [Hw|[b [_ Hw]]];
      [now left|right].
    exact (base_variants_usable _ _ _ Hw).
  - apply apply_leetspeak_In in Hw as [Hw|[word [_ Hw]]];
      [now left|right].
    exact (leet_variants_usable _ _ Hw).
Qed.

Lemma generators_skip_unusable_words_witness :
  (In "blueacme" [""] \/ usable "blueacme" = true) /\
  (In "blu3" [""] \/ usable "blu3" = true).
Proof.
  destruct (generators_skip_unusable_words
              [""; String "009" "x"; "blue"] ["acme"; ""]
              [""; String "127" "y"; "blue"] [""])
    as [_ [_ [H1 [H2 _]]]].
  split.
  - apply H1. apply mem_In. vm_compute. reflexivity.
  - apply H2. apply mem_In. vm_compute. reflexivity.
Defined.

(** ** The members of the output *)

Section OutputMembers.

Lemma seed_usable (base_words target_info : list string) (v : string) :
  seed base_words target_info v -> usable v = true.
Proof.
  intros [[_ H]|[_ [b [_ H]]]]; [exact H|].
  exact (base_variants_usable _ _ _ H).
Qed.

Lemma before_leet_In (base_words target_info : list string) (v : string) :
  In v (if negb (match target_info with [] => true | _ => false end)
        then generate_target_combinations base_words target_info
               (initial_candidates base_words)
        else initial_candidates base_words) <->
  seed base_words target_info v.
Proof.
  unfold seed. destruct target_info as [|t ts]; simpl negb; cbv iota.
  - rewrite initial_candidates_In. split; [tauto|].
    intros [H|[H _]]; [exact H|congruence].
  - rewrite generate_target_combinations_In, initial_candidates_In.
    split.
    + intros [H|H]; [now left|]. right. split; [discriminate|exact H].
    + intros [H|[_ H]]; [now left|now right].
Qed.

Lemma generated_candidates_In (base_words target_info : list string)
  (w : string) :
  In w (generated_candidates base_words target_info) <->
  exists v, seed base_words target_info v /\ (w = v \/ w = leet v).
Proof.
  unfold generated_candidates. rewrite apply_leetspeak_In.
  unfold leet_variants. split.
  - intros [H|[v [Hv [_ Hw]]]].
    + exists w. apply before_leet_In in H. tauto.
    + exists v. apply before_leet_In in Hv. tauto.
  - intros [v [Hv Hw]]. right. exists v.
    pose proof (seed_usable _ _ _ Hv) as Hu.
    apply before_leet_In in Hv. tauto.
Qed.

Lemma main_stdout_In (base_words target_info : list string) (w : string) :
  In w (stdout (main base_words target_info)) <->
  exists v, seed base_words target_info v /\ (w = v \/ w = leet v).
Proof.
  destruct base_words as [|b bs].
  - simpl. split; [tauto|].
    intros [v [[[[] _]|[_ [b [[] _]]]] _]].
  - rewrite main_stdout by discriminate. apply generated_candidates_In.
Qed.

Lemma base_variants_incl (target_info target_info' : list string)
  (b v : string) :
  incl target_info target_info' ->
  base_variants target_info b v -> base_variants target_info' b v.
Proof.
  intros HT [Hb [H|[[info [Hinfo H]]|H]]]; split; try exact Hb.
  - now left.
  - right. left. exists info. split; [apply HT, Hinfo|exact H].
  - right. now right.
Qed.

Lemma seed_incl (base_words base_words' target_info target_info'
  : list string) (v : string) :
  incl base_words base_words' -> incl target_info target_info' ->
  seed base_words target_info v -> seed base_words' target_info' v.
Proof.
  intros HB HT [[Hv Hu]|[Hne [b [Hb H]]]].
  - left. split; [apply HB, Hv|exact Hu].
  - right. split.
    + destruct target_info as [|t ts]; [congruence|].
      intros E. specialize (HT t (or_introl eq_refl)).
      rewrite E in HT. destruct HT.
    + exists b. split; [apply HB, Hb|].
      exact (base_variants_incl _ _ _ _ HT H).
Qed.

End OutputMembers.

(** X1: every printable non-empty base word is printed, and so is its
    substituted form, whatever the target-info list is. *)
Theorem base_words_in_output (base_words target_info : list string)
  (b : string) :
  In b base_words -> usable b = true ->
  In b (stdout (main base_words target_info)) /\
  In (leet b) (stdout (main base_words target_info)).
Proof.
  intros Hb Hu.
  split; apply main_stdout_In; exists b; (split; [left|]); tauto.
Qed.

Lemma base_words_in_output_witness :
  In "blue" (stdout (main ["red"; "blue"] ["acme"])) /\
  In "blu3" (stdout (main ["red"; "blue"] ["acme"])).
Proof.
  apply (base_words_in_output ["red"; "blue"] ["acme"] "blue");
    [simpl; tauto|reflexivity].
Defined.

(** X2: every printed string is non-empty and made of printable
    characters only, even when the word lists hold empty or non-printable
    words. *)
Theorem output_words_usable (base_words target_info : list string)
  (w : string) :
  In w (stdout (main base_words target_info)) ->
  w <> "" /\ all_printable w.
Proof.
  intros Hw. apply usable_iff.
  apply main_stdout_In in Hw as [v [Hv [->| ->]]].
  - exact (seed_usable _ _ _ Hv).
  - rewrite leet_usable. exact (seed_usable _ _ _ Hv).
Qed.

Lemma output_words_usable_witness :
  "blu3@cm3" <> "" /\ all_printable "blu3@cm3".
Proof.
  apply (output_words_usable [String "007" "x"; "blue"] [""; "acme"]).
  apply mem_In. vm_compute. reflexivity.
Defined.

(** X3: the printed collection is closed under the substitution: with a
    string it holds the substituted form of that string. *)
Theorem output_closed_under_leet (base_words target_info : list string)
  (w : string) :
  In w (stdout (main base_words target_info)) ->
  In (leet w) (stdout (main base_words target_info)).
Proof.
  intros Hw. apply main_stdout_In.
  apply main_stdout_In in Hw as [v [Hv [->| ->]]].
  - exists v. tauto.
  - exists v. rewrite leet_leet. tauto.
Qed.

Lemma output_closed_under_leet_witness :
  In (leet "Blueacme2024") (stdout (main ["blue"] ["acme"])).
Proof.
  apply (output_closed_under_leet ["blue"] ["acme"] "Blueacme2024").
  apply mem_In. vm_compute. reflexivity.
Defined.

(** X4: the printed sequence depends only on which words occur in the two
    lists, not on their order or on repetitions. *)
Theorem output_independent_of_input_order
  (base_words base_words' target_info target_info' : list string) :
  (forall w, In w base_words <-> In w base_words') ->
  (forall w, In w target_info <-> In w target_info') ->
  stdout (main base_words target_info) =
  stdout (main base_words' target_info').
Proof.
  intros HB HT.
  apply ok_same_members; try apply main_stdout_ok.
  intros w. rewrite !main_stdout_In.
  split; intros [v [Hv Hw]]; exists v; (split; [|exact Hw]);
    (eapply seed_incl; [| |exact Hv]); intros x Hx;
    first [apply HB, Hx | apply HT, Hx].
Qed.

Lemma output_independent_of_input_order_witness :
  stdout (main ["blue"; "red"] ["acme"; "corp"]) =
  stdout (main ["red"; "blue"; "red"] ["corp"; "acme"; "acme"]).
Proof.
  apply (output_independent_of_input_order
           ["blue"; "red"] ["red"; "blue"; "red"]
           ["acme"; "corp"] ["corp"; "acme"; "acme"]);
    intros w; simpl; tauto.
Defined.

(** X5: adding words to either list never removes a printed string. *)
Theorem output_monotone
  (base_words base_words' target_info target_info' : list string) :
  incl base_words base_words' -> incl target_info target_info' ->
  incl (stdout (main base_words target_info))
       (stdout (main base_words' target_info')).
Proof.
  intros HB HT w Hw. apply main_stdout_In.
  apply main_stdout_In in Hw as [v [Hv Hw]].
  exists v. split; [|exact Hw].
  exact (seed_incl _ _ _ _ _ HB HT Hv).
Qed.

Lemma output_monotone_witness :
  incl (stdout (main ["blue"] [])) (stdout (main ["red"; "blue"] ["acme"])).
Proof.
  apply (output_monotone ["blue"] ["red"; "blue"] [] ["acme"]);
    intros w; simpl; tauto.
Defined.

(** X6: nothing is printed exactly when no base word is printable and
    non-empty; the exit status is 1 exactly when the base word list is
    empty, so a non-empty list of unusable words ends with status 0 and
    no output. *)
Theorem output_empty_iff (base_words target_info : list string) :
  (stdout (main base_words target_info) = [] <->
   forall b, In b base_words -> usable b = false) /\
  (exit_code (main base_words target_info) = 1%Z <-> base_words = []) /\
  (exit_code (main base_words target_info) = 0%Z <-> base_words <> []).
Proof.
  split; [|destruct base_words; simpl; split; split; congruence].
  split.
  - intros Hnil b Hb. destruct (usable b) eqn:Hu; [|reflexivity].
    assert (Hin : In b (stdout (main base_words target_info))).
    { apply main_stdout_In. exists b. split; [left|]; tauto. }
    rewrite Hnil in Hin. destruct Hin.
  - intros Hall.
    destruct (stdout (main base_words target_info)) as [|w ws] eqn:E;
      [reflexivity|].
    assert (Hw : In w (stdout (main base_words target_info)))
      by (rewrite E; now left).
    apply main_stdout_In in Hw as [v [[[Hv Hu]|[_ [b [Hb [Hu _]]]]] _]].
    + rewrite (Hall v Hv) in Hu. discriminate.
    + rewrite (Hall b Hb) in Hu. discriminate.
Qed.

Lemma output_empty_iff_witness :
  main [String "009" "x"; ""] ["acme"] = {| exit_code := 0; stdout := [] |}.
Proof.
  destruct (output_empty_iff [String "009" "x"; ""] ["acme"])
    as [[_ H] [_ [_ H0]]].
  assert (Hout : stdout (main [String "009" "x"; ""] ["acme"]) = []).
  { apply H. intros b [<-|[<-|[]]]; reflexivity. }
  assert (Hcode : exit_code (main [String "009" "x"; ""] ["acme"]) = 0%Z).
  { apply H0. discriminate. }
  destruct (main [String "009" "x"; ""] ["acme"]) as [code out].
  simpl in Hout, Hcode. rewrite Hout, Hcode. reflexivity.
Defined.

(** ** More on the substitution and the capitalization *)

Section Characters.

Lemma leet_char_fixed (c : ascii) :
  Ascii.eqb (leet_char c) c = negb (leet_source c).
Proof. destruct c as [[] [] [] [] [] [] [] []]; reflexivity. Qed.

Lemma leet_char_not_source (c : ascii) : leet_source (leet_char c) = false.
Proof. destruct c as [[] [] [] [] [] [] [] []]; reflexivity. Qed.

Lemma toupper_fixed (c : ascii) :
  toupper c = c <-> ~ (97 <= N_of_ascii c <= 122)%N.
Proof.
  unfold toupper.
  destruct ((97 <=? N_of_ascii c)%N && (N_of_ascii c <=? 122)%N) eqn:E.
  - apply andb_true_iff in E as [E1 E2]. apply N.leb_le in E1, E2.
    split; [|lia]. intros H _.
    apply (f_equal N_of_ascii) in H.
    rewrite N_ascii_embedding in H by lia. lia.
  - split; [|reflexivity]. intros _ [H1 H2].
    apply N.leb_le in H1, H2. rewrite H1, H2 in E. discriminate.
Qed.

Lemma toupper_idempotent (c : ascii) : toupper (toupper c) = toupper c.
Proof.
  apply toupper_fixed. unfold toupper.
  destruct ((97 <=? N_of_ascii c)%N && (N_of_ascii c <=? 122)%N) eqn:E.
  - apply andb_true_iff in E as [E1 E2]. apply N.leb_le in E1, E2.
    rewrite N_ascii_embedding by lia. lia.
  - intros [H1 H2]. apply N.leb_le in H1, H2.
    rewrite H1, H2 in E. discriminate.
Qed.

End Characters.

(** The substitution leaves a word as it is exactly when the word has
    none of the letters of the table. *)
Lemma leet_fixed_iff (w : string) :
  leet w = w <->
  forall c, In c (list_ascii_of_string w) -> leet_source c = false.
Proof.
  rewrite leet_is_single_pass.
  induction w as [|c r IH]; simpl.
  - split; [intros _ c []|reflexivity].
  - split.
    + intros H. injection H as Hc Hr. intros c' [<-|Hc'].
      * pose proof (leet_char_fixed c) as F. rewrite Hc in F.
        rewrite Ascii.eqb_refl in F.
        destruct (leet_source c); [discriminate|reflexivity].
      * apply IH; assumption.
    + intros H. f_equal.
      * pose proof (leet_char_fixed c) as F.
        rewrite (H c (or_introl eq_refl)) in F.
        apply Ascii.eqb_eq. exact F.
      * apply IH. intros c' Hc'. apply H. now right.
Qed.

(** X7: the twelve replacements leave a word as it is exactly when the
    word has none of the letters e, a, o, s, i, t in either case.  So the
    transformer, run on one word, puts into the set a string other than
    the word itself exactly when the word passes the guard (printable and
    non-empty) and has such a letter; that string is the substituted
    form, and it differs from the word.  A word that fails the guard
    gets no substituted form, whatever letters it has. *)
Theorem leet_variant_iff (word : string) (candidates : set) :
  (leet word = word <->
   forall c, In c (list_ascii_of_string word) -> leet_source c = false) /\
  (forall w,
      In w (apply_leetspeak [word] candidates) <->
      In w candidates \/
      usable word = true /\
      (w = word \/
       w = leet word /\ w <> word /\
       exists c, In c (list_ascii_of_string word) /\ leet_source c = true)) /\
  (usable word = false -> apply_leetspeak [word] candidates = candidates).
Proof.
  split; [apply leet_fixed_iff|]. split.
  - intros w. rewrite apply_leetspeak_In. unfold leet_variants. split.
    + intros [H|[v [[<-|[]] [Hu Hw]]]]; [now left|right].
      split; [exact Hu|].
      destruct (string_dec w word) as [E|NE]; [now left|right].
      destruct Hw as [Hw|Hw]; [congruence|].
      split; [exact Hw|]. split; [exact NE|].
      assert (Hex : existsb leet_source (list_ascii_of_string word) = true).
      { destruct (existsb leet_source (list_ascii_of_string word)) eqn:Ex;
          [reflexivity|].
        exfalso. apply NE. rewrite Hw. apply leet_fixed_iff.
        intros c Hc.
        destruct (leet_source c) eqn:Ec; [|reflexivity].
        assert (Ht : existsb leet_source (list_ascii_of_string word) = true)
          by (apply existsb_exists; exists c; tauto).
        congruence. }
      apply existsb_exists in Hex. exact Hex.
    + intros [H|[Hu [->|[-> _]]]]; [now left| |];
        right; exists word; (split; [now left|]); tauto.
  - intros Hu. unfold apply_leetspeak. simpl.
    apply leet_round_skip, Hu.
Qed.

Lemma leet_variant_iff_witness :
  apply_leetspeak [String "009" "e"] ["zebra"] = ["zebra"].
Proof.
  apply (proj2 (proj2 (leet_variant_iff (String "009" "e") ["zebra"]))).
  reflexivity.
Defined.

(** X8: a substituted string has the length of the original and none of
    the letters the table replaces. *)
Theorem leet_shape (w : string) :
  String.length (leet w) = String.length w /\
  forall c, In c (list_ascii_of_string (leet w)) -> leet_source c = false.
Proof.
  rewrite leet_is_single_pass.
  induction w as [|c r [IHl IHc]]; simpl.
  - split; [reflexivity|intros c []].
  - split; [rewrite IHl; reflexivity|].
    intros c' [<-|Hc'].
    + apply leet_char_not_source.
    + apply IHc, Hc'.
Qed.

Lemma leet_shape_witness :
  leet_source "3" = false.
Proof.
  apply (proj2 (leet_shape "Secret")). simpl. tauto.
Defined.

(** X9: the capitalization keeps the length of a word, changes nothing
    when applied a second time, and changes a non-empty word exactly when
    the word starts with one of the letters a to z. *)
Theorem capitalize_shape :
  (forall s, String.length (capitalize s) = String.length s) /\
  (forall s, capitalize (capitalize s) = capitalize s) /\
  (forall c r,
      capitalize (String c r) = String c r <->
      ~ (97 <= N_of_ascii c <= 122)%N).
Proof.
  split; [|split].
  - intros [|c r]; reflexivity.
  - intros [|c r]; simpl; [reflexivity|].
    rewrite toupper_idempotent. reflexivity.
  - intros c r. rewrite <- toupper_fixed. simpl. split.
    + intros H. injection H as H. exact H.
    + intros ->. reflexivity.
Qed.

(** ** The two generators on their own *)

(** X10: called with an empty target-info list, the combination generator
    adds to the set the printable non-empty base words, each of them
    followed by each suffix, each of them capitalized and followed by
    each suffix, and nothing else. *)
Theorem generate_without_info_exact (base_words : list string)
  (candidates : set) (w : string) :
  In w (generate_target_combinations base_words [] candidates) <->
  In w candidates \/
  exists b,
    In b base_words /\ usable b = true /\
    (w = b \/
     exists x, In x common_suffixes /\
               (w = (b ++ x)%string \/ w = (capitalize b ++ x)%string)).
Proof.
  rewrite generate_target_combinations_In. unfold base_variants.
  split; (intros [H|[b [Hb [Hu H]]]]; [now left|right]); exists b;
    (split; [exact Hb|]); (split; [exact Hu|]).
  - destruct H as [H|[[info [[] _]]|[x [Hx H]]]]; [now left|].
    right. exists x. split; [exact Hx|].
    simpl in H. destruct H as [<-|[<-|[]]]; tauto.
  - destruct H as [H|[x [Hx H]]]; [now left|].
    right. right. exists x. split; [exact Hx|].
    simpl. destruct H as [-> | ->]; tauto.
Qed.

(** X11: the transformer adds to the set every printable non-empty input
    word, whether it was in the set or not, and the substituted form of
    each such word, and nothing else. *)
Theorem apply_leetspeak_exact (input_words : list string)
  (candidates : set) (w : string) :
  In w (apply_leetspeak input_words candidates) <->
  In w candidates \/
  exists word,
    In word input_words /\ usable word = true /\
    (w = word \/ w = leet word).
Proof. apply apply_leetspeak_In. Qed.

(** X12: running either generator a second time with the same arguments
    changes nothing. *)
Theorem generators_idempotent
  (base_words target_info input_words : list string) (candidates : set) :
  ok candidates ->
  generate_target_combinations base_words target_info
    (generate_target_combinations base_words target_info candidates) =
  generate_target_combinations base_words target_info candidates /\
  apply_leetspeak input_words (apply_leetspeak input_words candidates) =
  apply_leetspeak input_words candidates.
Proof.
  intros Hok. split.
  - apply ok_same_members;
      repeat apply generate_target_combinations_ok; try exact Hok.
    intros w. rewrite !generate_target_combinations_In. tauto.
  - apply ok_same_members; repeat apply apply_leetspeak_ok; try exact Hok.
    intros w. rewrite !apply_leetspeak_In. tauto.
Qed.

Lemma generators_idempotent_witness :
  generate_target_combinations ["blue"] ["acme"]
    (generate_target_combinations ["blue"] ["acme"] ["zebra"]) =
  generate_target_combinations ["blue"] ["acme"] ["zebra"] /\
  apply_leetspeak ["Secret"] (apply_leetspeak ["Secret"] ["zebra"]) =
  apply_leetspeak ["Secret"] ["zebra"].
Proof.
  apply (generators_idempotent ["blue"] ["acme"] ["Secret"] ["zebra"]).
  repeat constructor.
Defined.

(** ** How many candidates a run can print *)

Section Counting.

Lemma flat_map_constant_length {A B : Type} (f : A -> list B) (k : nat)
  (l : list A) :
  (forall x, List.length (f x) = k) ->
  List.length (flat_map f l) = List.length l * k.
Proof.
  intros Hf. induction l as [|x l IH]; simpl.
  - reflexivity.
  - rewrite length_app, Hf, IH. reflexivity.
Qed.

Lemma info_strings_length (base info : string) :
  List.length (info_strings base info) = 62.
Proof. reflexivity. Qed.

Lemma base_strings_length (target_info : list string) (base : string) :
  List.length (base_strings target_info base) =
  15 + 62 * List.length target_info.
Proof.
  unfold base_strings. cbn [List.length]. rewrite length_app.
  rewrite (flat_map_constant_length (info_strings base) 62)
    by apply info_strings_length.
  rewrite (flat_map_constant_length (base_suffix_round base) 2)
    by reflexivity.
  change (List.length common_suffixes) with 7. lia.
Qed.

Lemma info_variants_listed (base info w : string) :
  info_variants base info w -> In w (info_strings base info).
Proof.
  intros [_ [H|[x [Hx H]]]]; unfold info_strings; apply in_or_app.
  - left. simpl in *. tauto.
  - simpl in H.
    repeat (destruct H as [<-|H];
            [first [ left; simpl; tauto
                   | right; apply in_flat_map; exists x;
                     split; [exact Hx|simpl; tauto] ]|]).
    destruct H.
Qed.

Lemma base_variants_listed (target_info : list string) (base w : string) :
  base_variants target_info base w -> In w (base_strings target_info base).
Proof.
  intros [_ [->|[[info [Hinfo H]]|[x [Hx H]]]]]; unfold base_strings.
  - now left.
  - right. apply in_or_app. left. apply in_flat_map. exists info.
    split; [exact Hinfo|apply info_variants_listed, H].
  - right. apply in_or_app. right. apply in_flat_map. exists x.
    split; assumption.
Qed.

Lemma seed_listed (base_words target_info : list string) (v : string) :
  seed base_words target_info v ->
  In v (flat_map (base_strings target_info) base_words).
Proof.
  intros [[Hv _]|[_ [b [Hb H]]]]; apply in_flat_map.
  - exists v. split; [exact Hv|now left].
  - exists b. split; [exact Hb|apply base_variants_listed, H].
Qed.

End Counting.

(** X13: a run prints at most [2 * |B| * (15 + 62 * |T|)] candidates for
    a base word list [B] and a target-info list [T]. *)
Theorem output_size_bound (base_words target_info : list string) :
  List.length (stdout (main base_words target_info)) <=
  2 * (List.length base_words * (15 + 62 * List.length target_info)).
Proof.
  set (L := flat_map (base_strings target_info) base_words).
  assert (HL : List.length L =
               List.length base_words * (15 + 62 * List.length target_info)).
  { apply flat_map_constant_length. intros b. apply base_strings_length. }
  rewrite <- HL.
  replace (2 * List.length L) with (List.length (L ++ map leet L))
    by (rewrite length_app, length_map; lia).
  apply NoDup_incl_length.
  - apply ok_NoDup, main_stdout_ok.
  - intros w Hw. apply main_stdout_In in Hw as [v [Hv Hw]].
    apply seed_listed in Hv. apply in_or_app.
    destruct Hw as [->| ->]; [now left|right].
    apply in_map, Hv.
Qed.

(** ** Reading a word list *)

Section Loading.

Lemma getlines_getline (unread : string) :
  getlines unread =
  match getline unread with
  | None => []
  | Some (line, rest) => line :: getlines rest
  end.
Proof.
  induction unread as [|c r IH]; simpl.
  - reflexivity.
  - destruct (Ascii.eqb c "010"); [reflexivity|].
    rewrite IH. destruct (getline r) as [[line rest]|]; reflexivity.
Qed.

Lemma getlines_no_lf (unread line : string) (c : ascii) :
  In line (getlines unread) -> In c (list_ascii_of_string line) ->
  is_lf c = false.
Proof.
  revert line. induction unread as [|a r IH]; intros line; simpl.
  - intros [].
  - destruct (Ascii.eqb a "010") eqn:E.
    + intros [<-|H]; [intros []|]. apply IH, H.
    + destruct (getlines r) as [|l ls].
      * intros [<-|[]]. simpl. intros [<-|[]]. exact E.
      * intros [<-|H].
        -- simpl. intros [<-|Hc]; [exact E|].
           apply (IH l); [now left|exact Hc].
        -- apply IH. now right.
Qed.

Lemma getlines_line (line eol_rest : string) :
  (forall c, In c (list_ascii_of_string line) -> is_lf c = false) ->
  getlines (line ++ String "010" eol_rest) = line :: getlines eol_rest.
Proof.
  induction line as [|a r IH]; intros H; simpl.
  - reflexivity.
  - assert (Ha : Ascii.eqb a "010" = false)
      by (apply (H a); simpl; now left).
    rewrite Ha, IH; [reflexivity|].
    intros c Hc. apply H. simpl. now right.
Qed.

Lemma getlines_last (line : string) :
  line <> "" ->
  (forall c, In c (list_ascii_of_string line) -> is_lf c = false) ->
  getlines line = [line].
Proof.
  induction line as [|a r IH]; intros Hne H; [congruence|]. simpl.
  assert (Ha : Ascii.eqb a "010" = false)
    by (apply (H a); simpl; now left).
  rewrite Ha. destruct r as [|b r'].
  - reflexivity.
  - rewrite IH; [reflexivity|discriminate|].
    intros c Hc. apply H. simpl. now right.
Qed.

Lemma append_char_assoc (s : string) (c : ascii) (t : string) :
  ((s ++ String c "") ++ t = s ++ String c t)%string.
Proof.
  induction s as [|a r IH]; simpl; [reflexivity|].
  rewrite IH. reflexivity.
Qed.

Lemma load_round_app (lines : list string) (line : string) :
  load_round lines line = lines ++ load_round [] line.
Proof.
  unfold load_round.
  destruct (negb (empty _)); [reflexivity|].
  symmetry. apply app_nil_r.
Qed.

Lemma load_loop_flat_map (raw lines : list string) :
  fold_left load_round raw lines = lines ++ flat_map (load_round []) raw.
Proof.
  revert lines. induction raw as [|l raw IH]; intros lines; simpl.
  - symmetry. apply app_nil_r.
  - rewrite IH, load_round_app, <- app_assoc. reflexivity.
Qed.

Lemma pop_back_chars (s : string) (c : ascii) :
  In c (list_ascii_of_string (pop_back s)) ->
  In c (list_ascii_of_string s).
Proof.
  induction s as [|a r IH]; simpl; [tauto|].
  destruct r as [|b r']; [intros []|].
  simpl. intros [<-|H]; [now left|]. right. apply IH, H.
Qed.

Lemma back_append_char (s : string) (c : ascii) :
  back (s ++ String c "") = Some c.
Proof.
  induction s as [|a r IH]; simpl; [reflexivity|].
  destruct (r ++ String c "")%string eqn:E; [|exact IH].
  destruct r; discriminate.
Qed.

Lemma pop_back_append_char (s : string) (c : ascii) :
  pop_back (s ++ String c "") = s.
Proof.
  induction s as [|a r IH]; simpl; [reflexivity|].
  destruct (r ++ String c "")%string eqn:E.
  - destruct r; discriminate.
  - rewrite IH. reflexivity.
Qed.

Lemma load_round_plain (line : string) :
  plain_line line -> load_round [] line = [line].
Proof.
  intros [Hne [_ Hback]]. unfold load_round.
  assert (Hkeep : negb (empty line) &&
                  match back line with
                  | Some c => Ascii.eqb c "013"
                  | None => false
                  end = false).
  { destruct (back line) as [c|]; [|apply andb_false_r].
    destruct (Ascii.eqb c "013") eqn:Ec; [|apply andb_false_r].
    apply Ascii.eqb_eq in Ec. subst c. congruence. }
  rewrite Hkeep. destruct line; [congruence|reflexivity].
Qed.

Lemma load_round_cr (line : string) :
  line <> "" -> load_round [] (line ++ String "013" "") = [line].
Proof.
  intros Hne. unfold load_round.
  rewrite back_append_char, pop_back_append_char.
  destruct line as [|a r]; [congruence|]. reflexivity.
Qed.

Lemma load_round_result (raw line : string) :
  In line (load_round [] raw) ->
  line <> "" /\
  forall c, In c (list_ascii_of_string line) ->
            In c (list_ascii_of_string raw).
Proof.
  unfold load_round.
  set (stripped :=
         if negb (empty raw) &&
            match back raw with
            | Some c => Ascii.eqb c "013"
            | None => false
            end
         then pop_back raw else raw).
  assert (Hs : forall c, In c (list_ascii_of_string stripped) ->
                         In c (list_ascii_of_string raw)).
  { unfold stripped. destruct (_ && _); [apply pop_back_chars|tauto]. }
  destruct stripped as [|a r]; simpl.
  - intros [].
  - intros [<-|[]]. split; [discriminate|exact Hs].
Qed.

End Loading.

(** X14: no line that [load_file_lines] returns is empty or holds a line
    feed; a file that cannot be opened gives no lines. *)
Theorem load_file_lines_lines (file : option string) (line : string) :
  In line (load_file_lines file) ->
  file <> None /\ line <> "" /\
  forall c, In c (list_ascii_of_string line) -> is_lf c = false.
Proof.
  destruct file as [content|]; simpl; [|intros []].
  rewrite load_loop_flat_map. simpl. intros H.
  apply in_flat_map in H as [raw [Hraw H]].
  apply load_round_result in H as [Hne Hc].
  split; [discriminate|]. split; [exact Hne|].
  intros c Hin. exact (getlines_no_lf content raw c Hraw (Hc c Hin)).
Qed.

Lemma load_file_lines_lines_witness :
  Some ("blue" ++ String "013" (String "010" "red"))%string <> None /\
  "blue" <> "" /\
  forall c, In c (list_ascii_of_string "blue") -> is_lf c = false.
Proof.
  apply (load_file_lines_lines
           (Some ("blue" ++ String "013" (String "010" "red"))%string)).
  vm_compute. tauto.
Defined.

(** X15: a list of lines, none of them empty, holding a line feed or
    ending in a carriage return, is read back as it is from the file that
    holds each line followed by a line feed, from the file that holds
    each line followed by carriage return and line feed, and from the
    file whose lines are separated by line feeds with none after the
    last. *)
Theorem load_file_lines_round_trip (lines : list string) :
  Forall plain_line lines ->
  load_file_lines (Some (unlines (String "010" "") lines)) = lines /\
  load_file_lines (Some (unlines (String "013" (String "010" "")) lines))
  = lines /\
  load_file_lines (Some (String.concat (String "010" "") lines)) = lines.
Proof.
  intros H. unfold load_file_lines.
  rewrite !load_loop_flat_map. simpl app.
  induction H as [|line rest Hline Hrest [IH1 [IH2 IH3]]].
  - repeat split.
  - pose proof Hline as [Hne [Hlf Hback]].
    split; [|split].
    + cbn [unlines String.append]. rewrite getlines_line by exact Hlf.
      cbn [flat_map]. rewrite (load_round_plain line Hline), IH1.
      reflexivity.
    + cbn [unlines String.append].
      rewrite <- (append_char_assoc line "013").
      rewrite getlines_line.
      * cbn [flat_map]. rewrite (load_round_cr line Hne), IH2.
        reflexivity.
      * intros c Hc. clear - Hc Hlf.
        induction line as [|a r IH]; simpl in Hc.
        -- destruct Hc as [<-|[]]. reflexivity.
        -- destruct Hc as [<-|Hc]; [apply Hlf; simpl; now left|].
           apply IH; [intros c' Hc'; apply Hlf; simpl; now right|exact Hc].
    + destruct rest as [|next rest'].
      * simpl String.concat. rewrite getlines_last by assumption.
        cbn [flat_map]. rewrite (load_round_plain line Hline).
        reflexivity.
      * change (String.concat (String "010" "") (line :: next :: rest'))
          with (line ++ String "010"
                  (String.concat (String "010" "") (next :: rest')))%string.
        rewrite getlines_line by exact Hlf.
        cbn [flat_map]. rewrite (load_round_plain line Hline), IH3.
        reflexivity.
Qed.

Lemma load_file_lines_round_trip_witness :
  load_file_lines (Some (unlines (String "010" "") ["blue"; "red sky"]))
  = ["blue"; "red sky"] /\
  load_file_lines
    (Some (unlines (String "013" (String "010" "")) ["blue"; "red sky"]))
  = ["blue"; "red sky"] /\
  load_file_lines (Some (String.concat (String "010" "") ["blue"; "red sky"]))
  = ["blue"; "red sky"].
Proof.
  apply (load_file_lines_round_trip ["blue"; "red sky"]).
  repeat constructor; try discriminate;
    intros c Hc; simpl in Hc;
    repeat (destruct Hc as [<-|Hc]; [reflexivity|]); destruct Hc.
Defined.

(** ** The program as run from the command line *)

Section CommandLine.

Lemma main_exit_code (base_words target_info : list string) :
  exit_code (main base_words target_info) =
  match base_words with [] => 1%Z | _ => 0%Z end.
Proof. destruct base_words; reflexivity. Qed.

Lemma main_stdout_usable (base_words target_info : list string)
  (w : string) :
  In w (stdout (main base_words target_info)) -> usable w = true.
Proof.
  intros Hw. apply main_stdout_In in Hw as [v [Hv [->| ->]]].
  - exact (seed_usable _ _ _ Hv).
  - rewrite leet_usable. exact (seed_usable _ _ _ Hv).
Qed.

End CommandLine.

(** X16: the program ends with status 0 exactly when a base word list
    path is given and the file there can be opened and has a line that is
    not empty once a trailing carriage return is removed; otherwise it
    ends with status 1, and then it prints nothing. *)
Theorem main_argv_exit_status (fs : string -> option string)
  (argv : list string) :
  (exit_code (main_argv fs argv) = 0%Z <->
   exists prog path rest,
     argv = prog :: path :: rest /\ load_file_lines (fs path) <> []) /\
  (exit_code (main_argv fs argv) <> 0%Z ->
   exit_code (main_argv fs argv) = 1%Z /\ stdout (main_argv fs argv) = []).
Proof.
  destruct argv as [|prog [|path rest]].
  - split.
    + split; [discriminate|]. intros [p [q [r [E _]]]]. discriminate.
    + intros _. split; reflexivity.
  - split.
    + split; [discriminate|]. intros [p [q [r [E _]]]]. discriminate.
    + intros _. split; reflexivity.
  - unfold main_argv.
    set (target_info := if negb (empty _) then _ else []).
    rewrite main_exit_code.
    destruct (load_file_lines (fs path)) as [|b bs] eqn:E.
    + split.
      * split; [discriminate|].
        intros [p [q [r [Eq H]]]]. injection Eq as -> -> ->.
        congruence.
      * intros _. split; reflexivity.
    + split.
      * split; [|reflexivity]. intros _.
        exists prog, path, rest. split; [reflexivity|].
        rewrite E. discriminate.
      * congruence.
Qed.

Lemma main_argv_exit_status_witness :
  exit_code (main_argv (fun _ => None) ["gen"; "words.txt"]) = 1%Z /\
  stdout (main_argv (fun _ => None) ["gen"; "words.txt"]) = [].
Proof.
  apply (proj2 (main_argv_exit_status (fun _ => None) ["gen"; "words.txt"])).
  discriminate.
Defined.

(** X17: a target-info path that is the empty string, that names a file
    that cannot be opened, or that names a file without a non-empty line,
    gives the run that no target-info path gives; arguments after the
    target-info path are not looked at. *)
Theorem main_argv_target_info_absent (fs : string -> option string)
  (prog base_path target_path : string) (rest : list string) :
  (target_path = "" \/ load_file_lines (fs target_path) = [] ->
   main_argv fs (prog :: base_path :: target_path :: rest) =
   main_argv fs [prog; base_path]) /\
  main_argv fs (prog :: base_path :: target_path :: rest) =
  main_argv fs [prog; base_path; target_path].
Proof.
  split; [|reflexivity].
  intros [-> |H]; [reflexivity|].
  unfold main_argv. rewrite H.
  destruct (negb (empty target_path)); reflexivity.
Qed.

Lemma main_argv_target_info_absent_witness :
  main_argv
    (fun path => if String.eqb path "words.txt"
                 then Some ("blue" ++ String "010" "")%string else None)
    ["gen"; "words.txt"; "missing.txt"; "more"] =
  main_argv
    (fun path => if String.eqb path "words.txt"
                 then Some ("blue" ++ String "010" "")%string else None)
    ["gen"; "words.txt"].
Proof.
  apply (proj1 (main_argv_target_info_absent
                  (fun path => if String.eqb path "words.txt"
                               then Some ("blue" ++ String "010" "")%string
                               else None)
                  "gen" "words.txt" "missing.txt" ["more"])).
  right. reflexivity.
Defined.

(** X18: whatever the files hold and whatever the arguments are, the
    lines the program prints are strictly increasing, free of
    repetitions, non-empty and made of printable characters only. *)
Theorem main_argv_output_well_formed (fs : string -> option string)
  (argv : list string) :
  Sorted Std.lt (stdout (main_argv fs argv)) /\
  NoDup (stdout (main_argv fs argv)) /\
  Forall (fun w => w <> "" /\ all_printable w) (stdout (main_argv fs argv)).
Proof.
  assert (H : exists base_words target_info,
             stdout (main_argv fs argv) =
             stdout (main base_words target_info)).
  { destruct argv as [|prog [|path rest]].
    - exists [], []. reflexivity.
    - exists [], []. reflexivity.
    - eexists. eexists. unfold main_argv. reflexivity. }
  destruct H as [base_words [target_info ->]].
  pose proof (main_stdout_ok base_words target_info) as Hok.
  split; [apply ok_Sorted, Hok|]. split; [apply ok_NoDup, Hok|].
  apply Forall_forall. intros w Hw. apply usable_iff.
  exact (main_stdout_usable _ _ _ Hw).
Qed.

(** ** Determinism: the output does not depend on the container's inside *)

Section Simulation.

Context {I : SetImpl} (HI : SetContract I).

(** A loop over an implementation of the container iterates like the
    same loop over the strictly increasing list, when every round
    does. *)
Lemma fold_left_elements {B : Type} (f : carrier -> B -> carrier)
  (g : set -> B -> set) :
  (forall s b, ok (set_elements s) ->
               set_elements (f s b) = g (set_elements s) b) ->
  (forall l b, ok l -> ok (g l b)) ->
  forall (bs : list B) (s : carrier),
    ok (set_elements s) ->
    set_elements (fold_left f bs s) = fold_left g bs (set_elements s).
Proof.
  intros Hfg Hg. induction bs as [|b bs IH]; intros s Hs; simpl.
  - reflexivity.
  - rewrite IH; rewrite Hfg by exact Hs; [reflexivity|].
    apply Hg, Hs.
Qed.

Lemma set_insert_elements (x : string) (s : carrier) :
  ok (set_elements s) ->
  set_elements (set_insert x s) = insert x (set_elements s).
Proof.
  intros Hs. apply ok_same_members.
  - apply (elements_ordered I HI), Hs.
  - apply insert_ok, Hs.
  - intros w. rewrite (elements_insert I HI), insert_In. reflexivity.
Qed.

Lemma insert_all_on_elements (ws : list string) (s : carrier) :
  ok (set_elements s) ->
  set_elements (insert_all_on ws s) = insert_all ws (set_elements s).
Proof.
  unfold insert_all_on, insert_all. apply fold_left_elements.
  - intros c w Hc. apply set_insert_elements, Hc.
  - intros l w Hl. apply insert_ok, Hl.
Qed.

Lemma info_round_on_elements (base info : string) (s : carrier) :
  ok (set_elements s) ->
  set_elements (info_round_on base s info) =
  info_round base (set_elements s) info.
Proof.
  intros Hs. unfold info_round_on, info_round.
  destruct (negb (is_printable info) || empty info); [reflexivity|].
  rewrite fold_left_elements
    with (g := fun c suffix => insert_all (suffix_round base info suffix) c).
  - rewrite insert_all_on_elements by exact Hs. reflexivity.
  - intros c x Hc. apply insert_all_on_elements, Hc.
  - intros l x Hl. apply insert_all_ok, Hl.
  - rewrite insert_all_on_elements by exact Hs. apply insert_all_ok, Hs.
Qed.

Lemma base_round_on_elements (target_info : list string) (base : string)
  (s : carrier) :
  ok (set_elements s) ->
  set_elements (base_round_on target_info s base) =
  base_round target_info (set_elements s) base.
Proof.
  intros Hs. unfold base_round_on, base_round.
  destruct (negb (is_printable base) || empty base); [reflexivity|].
  assert (Hins : ok (set_elements (set_insert base s)))
    by (apply (elements_ordered I HI), Hs).
  assert (Hinfo :
           set_elements
             (fold_left (info_round_on base) target_info
                (set_insert base s)) =
           fold_left (info_round base) target_info
             (insert base (set_elements s))).
  { rewrite fold_left_elements with (g := info_round base).
    - rewrite set_insert_elements by exact Hs. reflexivity.
    - intros c t Hc. apply info_round_on_elements, Hc.
    - intros l t Hl. apply info_round_ok, Hl.
    - exact Hins. }
  rewrite fold_left_elements
    with (g := fun c suffix =>
                 insert_all (base_suffix_round base suffix) c).
  - rewrite Hinfo. reflexivity.
  - intros c x Hc. apply insert_all_on_elements, Hc.
  - intros l x Hl. apply insert_all_ok, Hl.
  - rewrite Hinfo. apply fold_left_invariant.
    + intros a b _. apply info_round_ok.
    + apply insert_ok, Hs.
Qed.

Lemma generate_target_combinations_on_elements
  (base_words target_info : list string) (s : carrier) :
  ok (set_elements s) ->
  set_elements (generate_target_combinations_on base_words target_info s) =
  generate_target_combinations base_words target_info (set_elements s).
Proof.
  unfold generate_target_combinations_on, generate_target_combinations.
  apply fold_left_elements.
  - intros c b Hc. apply base_round_on_elements, Hc.
  - intros l b Hl. apply base_round_ok, Hl.
Qed.

Lemma leet_round_on_elements (word : string) (s : carrier) :
  ok (set_elements s) ->
  set_elements (leet_round_on s word) = leet_round (set_elements s) word.
Proof.
  intros Hs. unfold leet_round_on, leet_round.
  destruct (negb (is_printable word) || empty word); [reflexivity|].
  destruct (negb (String.eqb (leet word) word)).
  - rewrite !set_insert_elements; [reflexivity|exact Hs|].
    apply (elements_ordered I HI), Hs.
  - apply set_insert_elements, Hs.
Qed.

Lemma apply_leetspeak_on_elements (input_words : list string)
  (s : carrier) :
  ok (set_elements s) ->
  set_elements (apply_leetspeak_on input_words s) =
  apply_leetspeak input_words (set_elements s).
Proof.
  unfold apply_leetspeak_on, apply_leetspeak.
  apply fold_left_elements.
  - intros c w Hc. apply leet_round_on_elements, Hc.
  - intros l w Hl. apply leet_round_ok, Hl.
Qed.

Lemma initial_candidates_on_elements (base_words : list string) :
  set_elements (initial_candidates_on base_words) =
  initial_candidates base_words.
Proof.
  unfold initial_candidates_on, initial_candidates.
  rewrite fold_left_elements
    with (g := fun c word =>
                 if is_printable word && negb (empty word)
                 then insert word c else c).
  - rewrite (elements_empty I HI). reflexivity.
  - intros c w Hc.
    destruct (is_printable w && negb (empty w)); [|reflexivity].
    apply set_insert_elements, Hc.
  - intros l w Hl.
    destruct (is_printable w && negb (empty w)); [|exact Hl].
    apply insert_ok, Hl.
  - rewrite (elements_empty I HI). apply ok_nil.
Qed.

Lemma generated_candidates_on_elements
  (base_words target_info : list string) :
  set_elements (generated_candidates_on base_words target_info) =
  generated_candidates base_words target_info.
Proof.
  unfold generated_candidates_on, generated_candidates.
  assert (Hinit : ok (set_elements (initial_candidates_on base_words))).
  { rewrite initial_candidates_on_elements. apply initial_candidates_ok. }
  destruct target_info as [|t ts]; simpl negb; cbv iota zeta.
  - rewrite apply_leetspeak_on_elements by exact Hinit.
    rewrite initial_candidates_on_elements. reflexivity.
  - assert (Hgen :
             set_elements
               (generate_target_combinations_on base_words (t :: ts)
                  (initial_candidates_on base_words)) =
             generate_target_combinations base_words (t :: ts)
               (initial_candidates base_words)).
    { rewrite generate_target_combinations_on_elements by exact Hinit.
      rewrite initial_candidates_on_elements. reflexivity. }
    rewrite apply_leetspeak_on_elements; rewrite Hgen; [reflexivity|].
    apply generate_target_combinations_ok, initial_candidates_ok.
Qed.

(** Over any implementation that keeps the contract, a run ends and
    prints as it does over the strictly increasing list. *)
Lemma main_on_main (base_words target_info : list string) :
  main_on base_words target_info = main base_words target_info.
Proof.
  unfold main_on, main. destruct base_words as [|b bs]; [reflexivity|].
  rewrite generated_candidates_on_elements. reflexivity.
Qed.

End Simulation.

Section Implementations.

Lemma sorted_list_impl_contract : SetContract sorted_list_impl.
Proof.
  constructor; simpl.
  - reflexivity.
  - intros x s y. apply insert_In.
  - intros x s. apply insert_ok.
Qed.

Lemma sort_on_iteration_impl_contract : SetContract sort_on_iteration_impl.
Proof.
  constructor; simpl.
  - reflexivity.
  - intros x s y. apply insert_In.
  - intros x s. apply insert_ok.
Qed.

(** The ordering clause of the contract is what the result rests on: over
    a container that iterates in insertion order the same input prints
    another sequence. *)
Lemma ordering_contract_needed :
  main_on (I := sorted_list_impl) ["blue"] [] <>
  main_on (I := insertion_order_impl) ["blue"] [].
Proof. vm_compute. discriminate. Qed.

End Implementations.

(** C6: two runs given character-identical base-word and target-info
    lists end with the same exit status and print byte-identical
    sequences, the same members in the same order, however the container
    of either run stores its elements, as long as it keeps the contract
    of [std::set]: the program looks at the container only through
    [insert] and iteration, and the contract fixes what the iteration
    yields. *)
Theorem pipeline_deterministic (I1 I2 : SetImpl)
  (base_words target_info base_words' target_info' : list string) :
  SetContract I1 -> SetContract I2 ->
  base_words = base_words' -> target_info = target_info' ->
  main_on (I := I1) base_words target_info =
  main_on (I := I2) base_words' target_info'.
Proof.
  intros H1 H2 <- <-.
  rewrite (main_on_main H1), (main_on_main H2). reflexivity.
Qed.

Lemma pipeline_deterministic_witness :
  main_on (I := sorted_list_impl) ["blue"; "red"] ["acme"] =
  main_on (I := sort_on_iteration_impl) ["blue"; "red"] ["acme"].
Proof.
  apply (pipeline_deterministic sorted_list_impl sort_on_iteration_impl
           ["blue"; "red"] ["acme"] ["blue"; "red"] ["acme"]).
  - exact sorted_list_impl_contract.
  - exact sort_on_iteration_impl_contract.
  - reflexivity.
  - reflexivity.
Defined.
